(** * sapp.bulk_saver: a shallow embedding of [BulkSaver]

    The embedding follows [src/sapp/bulk_saver.py].  The pending buffers
    [self.saving] are a [gmap] from class names to lists of items, the store
    and the key generator are the state of an abstract [World], and every call
    that leaves the saver (key reservation, a type's [prepare], a bulk insert,
    a re-merge, the [before_save] hook) is recorded in an event trace. *)

From Stdlib Require Import ZArith Lia List Sorted Permutation DecimalString.
From stdpp Require Import base list sorting strings gmap.

Local Open Scope nat_scope.

(** ** Integer helpers *)

(** [-(a // -b)] with Python's floor division, the ceiling division that
    [_save_batch] spells out. *)
Definition neg_floordiv_neg (a b : Z) : Z := (- (a / - b))%Z.

Definition ceil_div (a b : nat) : nat := (a + (b - 1)) / b.
Arguments ceil_div : simpl never.

(** Least [d] with [n <= 4 ^ d], computed along the recursion of
    [_save_batch]: a batch of [n > 1] records is split into pieces of
    [ceil (n / 4)] records. *)
Fixpoint log4_up_aux (fuel n : nat) : nat :=
  match fuel with
  | 0 => 0
  | S fuel' => if n <=? 1 then 0 else S (log4_up_aux fuel' (ceil_div n 4))
  end.

Definition log4_up (n : nat) : nat := log4_up_aux n n.

(** The character of ["\n"]. *)
Definition newline : string := String (Ascii.ascii_of_nat 10) EmptyString.

(** ** [sapp.iterutil.split_every] *)

(** Modelled from the spec: [split_every] of [sapp/iterutil.py], which is not
    among the sources.  The spec has the writer split a sequence "into
    fixed-size chunks" and the source iterates [split_every(n, items)]: the
    pieces are the successive runs of [n] items, the last one possibly
    shorter, and the iteration stops at the first empty piece. *)
Fixpoint split_every_aux {A : Type} (fuel n : nat) (l : list A) : list (list A) :=
  match fuel with
  | 0 => []
  | S fuel' =>
      match take n l with
      | [] => []
      | piece => piece :: split_every_aux fuel' n (drop n l)
      end
  end.

Definition split_every {A : Type} (n : nat) (l : list A) : list (list A) :=
  split_every_aux (length l) n l.

(** ** Python's [sorted] with a key *)

(** Lexicographic comparison of two lists, as Python compares lists: element
    by element, a proper prefix first. *)
Fixpoint lex_compare {T : Type} (cmp : T -> T -> comparison) (a b : list T)
  : comparison :=
  match a, b with
  | [], [] => Eq
  | [], _ :: _ => Lt
  | _ :: _, [] => Gt
  | x :: a', y :: b' =>
      match cmp x y with
      | Eq => lex_compare cmp a' b'
      | c => c
      end
  end.

(** The comparison of the sort keys [list(d.keys())]: lists of strings, the
    strings compared character by character. *)
Definition keys_compare (a b : list string) : comparison :=
  lex_compare String.compare a b.

Definition keys_leb (a b : list string) : bool :=
  match keys_compare a b with Gt => false | _ => true end.

Section Sorted.
Context {A K : Type} (leb : K -> K -> bool) (key : A -> K).

(** [x] goes in front of the first element whose key is not smaller. *)
Fixpoint insert_sorted (x : A) (l : list A) : list A :=
  match l with
  | [] => [x]
  | y :: l' => if leb (key x) (key y) then x :: l else y :: insert_sorted x l'
  end.

(** The order of two items in a sorted list. *)
Definition key_le (x y : A) : Prop := leb (key x) (key y) = true.

(** [sorted(l, key=key)]: a stable sort. *)
Fixpoint sorted (l : list A) : list A :=
  match l with
  | [] => []
  | x :: l' => insert_sorted x (sorted l')
  end.
End Sorted.

(** ** Record types *)

(** The model classes.  The twelve classes of [SAVING_CLASSES_ORDER] are
    constructors of their own; [OtherModel] stands for any other model class
    (those that "should be added with session.add()"). *)
Inductive Model : Type :=
| SharedText
| Issue
| IssueInstanceFixInfo
| IssueInstance
| IssueInstanceSharedTextAssoc
| TraceFrame
| IssueInstanceTraceFrameAssoc
| TraceFrameAnnotation
| TraceFrameLeafAssoc
| TraceFrameAnnotationTraceFrameAssoc
| ClassTypeInterval
| MetaRunIssueInstanceIndex
| OtherModel (name : string).

#[global] Instance Model_eq_dec : EqDecision Model.
Proof. solve_decision. Defined.

(** [cls.__name__] *)
Definition __name__ (cls : Model) : string :=
  match cls with
  | SharedText => "SharedText"
  | Issue => "Issue"
  | IssueInstanceFixInfo => "IssueInstanceFixInfo"
  | IssueInstance => "IssueInstance"
  | IssueInstanceSharedTextAssoc => "IssueInstanceSharedTextAssoc"
  | TraceFrame => "TraceFrame"
  | IssueInstanceTraceFrameAssoc => "IssueInstanceTraceFrameAssoc"
  | TraceFrameAnnotation => "TraceFrameAnnotation"
  | TraceFrameLeafAssoc => "TraceFrameLeafAssoc"
  | TraceFrameAnnotationTraceFrameAssoc => "TraceFrameAnnotationTraceFrameAssoc"
  | ClassTypeInterval => "ClassTypeInterval"
  | MetaRunIssueInstanceIndex => "MetaRunIssueInstanceIndex"
  | OtherModel name => name
  end.

(** order is significant, objects will be saved in this order. *)
Definition SAVING_CLASSES_ORDER : list Model :=
  [ SharedText;
    Issue;
    IssueInstanceFixInfo;
    IssueInstance;
    IssueInstanceSharedTextAssoc;
    TraceFrame;
    IssueInstanceTraceFrameAssoc;
    TraceFrameAnnotation;
    TraceFrameLeafAssoc;
    TraceFrameAnnotationTraceFrameAssoc;
    ClassTypeInterval;
    MetaRunIssueInstanceIndex ].

Definition BATCH_SIZE : nat := Z.to_nat 30000.

Definition BATCH_SPLIT_FACTOR : Z := 4.

(** Position of a class in [SAVING_CLASSES_ORDER] (its length for a class
    that is not listed). *)
Fixpoint index_in (cls : Model) (l : list Model) : nat :=
  match l with
  | [] => 0
  | c :: l' => if decide (c = cls) then 0 else S (index_in cls l')
  end.

Definition class_index (cls : Model) : nat := index_in cls SAVING_CLASSES_ORDER.

(** ** Exceptions and results *)

Inductive exception (I : Type) : Type :=
| IntegrityError                                  (* sqlalchemy.exc.IntegrityError *)
| ValueError (cls_name : string) (duplicate : I)  (* raised by [_save_batch] *)
| AssertionError (model_name : string)            (* the asserts of [add], [add_all] *)
| KeyError (key : string)                         (* a missing key of [self.saving] *)
| RecursionError
| OtherError (code : nat).                        (* any other failure of a collaborator *)
Arguments IntegrityError {I}.
Arguments ValueError {I} cls_name duplicate.
Arguments AssertionError {I} model_name.
Arguments KeyError {I} key.
Arguments RecursionError {I}.
Arguments OtherError {I} code.

Inductive result (I A : Type) : Type :=
| Ok (a : A)
| Raise (e : exception I).
Arguments Ok {I A} a.
Arguments Raise {I A} e.

(** ** The collaborators *)

(** What [bulk_saver.py] takes from outside: the items and their [model]
    attribute, the database (and the key generator that lives with it) as a
    state [Store], and the calls the saver makes on them.  Each call may
    change the store and may raise. *)
Class World : Type := {
  Item : Type;
  Value : Type;
  Store : Type;
  (** [item.model] *)
  model : Item -> Model;
  (** [cls.to_dict(r)], an ordered mapping from field names to values *)
  to_dict : Model -> Item -> list (string * Value);
  (** [primary_key_generator.reserve(session, saving_classes, item_counts)]
      inside [database.make_session()] *)
  reserve : list Model -> gmap string nat -> Store -> result Item () * Store;
  (** [cls.prepare(database, pk_gen, items)], consumed to the end *)
  prepare : Model -> list Item -> Store -> result Item (list Item) * Store;
  (** [session.bulk_insert_mappings(cls, rows, render_nulls=True)] followed
      by [session.commit()], inside [database.make_session()] *)
  bulk_insert_mappings :
    Model -> list (list (string * Value)) -> Store -> result Item () * Store;
  (** [cls.merge(database, items)], consumed to the end: the items that are
      still unresolved *)
  merge : Model -> list Item -> Store -> result Item (list Item) * Store;
}.

Section BulkSaver.
Context {W : World}.

(** The calls that leave the saver, in the order they are made. *)
Inductive event : Type :=
| Reserve (saving_classes : list Model) (item_counts : gmap string nat)
| Prepare (cls : Model) (items : list Item)
| BeforeSave
| BulkInsert (cls : Model) (batch : list Item) (outcome : result Item ())
| Merge (cls : Model) (items : list Item) (unresolved : result Item (list Item)).

(** The saver and its surroundings: [self.saving] and the store. *)
Record state : Type := {
  store : Store;
  saving : gmap string (list Item);
}.

(** *** Computations *)

(** A computation reads and writes the state, returns or raises, and leaves a
    trace of events. *)
Definition M (A : Type) : Type := state -> result Item A * state * list event.

Definition ret {A} (a : A) : M A := fun st => (Ok a, st, []).

Definition raise {A} (e : exception Item) : M A := fun st => (Raise e, st, []).

Definition bind {A B} (m : M A) (k : A -> M B) : M B := fun st =>
  match m st with
  | (Ok a, st1, t1) => let '(r, st2, t2) := k a st1 in (r, st2, t1 ++ t2)
  | (Raise e, st1, t1) => (Raise e, st1, t1)
  end.

#[local] Notation "x <- m ;; k" := (bind m (fun x => k))
  (at level 20, m at level 99, k at level 200, only parsing).
#[local] Notation "m ;; k" := (bind m (fun _ => k))
  (at level 100, k at level 200, only parsing, right associativity).

(** The body of a [try]: what it returned or raised, as a value. *)
Definition attempt {A} (m : M A) : M (result Item A) := fun st =>
  let '(r, st1, t1) := m st in (Ok r, st1, t1).

(** [for x in l: body(x)] *)
Fixpoint for_each {A} (l : list A) (body : A -> M ()) : M () :=
  match l with
  | [] => ret ()
  | x :: l' => body x ;; for_each l' body
  end.

(** [[f(x) for x in l]] *)
Fixpoint mapM {A B} (f : A -> M B) (l : list A) : M (list B) :=
  match l with
  | [] => ret []
  | x :: l' =>
      y <- f x ;;
      ys <- mapM f l' ;;
      ret (y :: ys)
  end.

(** [[x for x in l if p(x)]] *)
Fixpoint filterM {A} (p : A -> M bool) (l : list A) : M (list A) :=
  match l with
  | [] => ret []
  | x :: l' =>
      b <- p x ;;
      xs <- filterM p l' ;;
      ret (if b then x :: xs else xs)
  end.

(** [{k(x): v(x) for x in l}], filled in the order of [l] *)
Fixpoint dictM {A V} (kv : A -> M (string * V)) (l : list A) (acc : gmap string V)
  : M (gmap string V) :=
  match l with
  | [] => ret acc
  | x :: l' => e <- kv x ;; dictM kv l' (<[e.1 := e.2]> acc)
  end.

(** [self.saving[k]] *)
Definition get_bucket (k : string) : M (list Item) := fun st =>
  match saving st !! k with
  | Some l => (Ok l, st, [])
  | None => (Raise (KeyError k), st, [])
  end.

(** [self.saving[k] = l] *)
Definition set_bucket (k : string) (l : list Item) : M () := fun st =>
  (Ok (), {| store := store st; saving := <[k := l]> (saving st) |}, []).

(** A call on a collaborator: it changes the store and is recorded. *)
Definition call {A} (f : Store -> result Item A * Store)
    (ev : result Item A -> event) : M A := fun st =>
  let '(r, s1) := f (store st) in
  (r, {| store := s1; saving := saving st |}, [ev r]).

(** *** [BulkSaver] *)

(** [__init__]: one empty bucket per class of [SAVING_CLASSES_ORDER] *)
Definition __init__ : gmap string (list Item) :=
  foldl (fun saving cls => <[__name__ cls := []]> saving) ∅ SAVING_CLASSES_ORDER.

Definition add (item : Item) : M () :=
  if bool_decide (model item ∈ SAVING_CLASSES_ORDER) then
    bucket <- get_bucket (__name__ (model item)) ;;
    set_bucket (__name__ (model item)) (bucket ++ [item])
  else raise (AssertionError (__name__ (model item))).

Definition add_all (items : list Item) : M () :=
  match items with
  | [] => ret ()
  | item0 :: _ =>
      if bool_decide (model item0 ∈ SAVING_CLASSES_ORDER) then
        bucket <- get_bucket (__name__ (model item0)) ;;
        set_bucket (__name__ (model item0)) (bucket ++ items)
      else raise (AssertionError (__name__ (model item0)))
  end.

Definition get_items_to_add (cls : Model) : M (list Item) :=
  get_bucket (__name__ cls).

(** [sorted(cls.prepare(...), key=lambda r: list(cls.to_dict(r).keys()))] *)
Definition field_keys (cls : Model) (r : Item) : list string :=
  (to_dict cls r).*1.

Definition _prepare (cls : Model) : M () :=
  raw <- get_bucket (__name__ cls) ;;
  prepared <- call (prepare cls raw) (fun _ => Prepare cls raw) ;;
  let items := sorted keys_leb (field_keys cls) prepared in
  set_bucket (__name__ cls) items.

(** [-(len(batch) // -self.BATCH_SPLIT_FACTOR)] *)
Definition sub_batch_size (batch : list Item) : nat :=
  Z.to_nat (neg_floordiv_neg (Z.of_nat (length batch)) BATCH_SPLIT_FACTOR).

(** The insert attempt of [_save_batch]: one round trip. *)
Definition insert_batch (cls : Model) (batch : list Item) : M () :=
  call (bulk_insert_mappings cls (map (to_dict cls) batch)) (BulkInsert cls batch).

(** The [except] branch of a one-record batch. *)
Definition remerge (cls : Model) (duplicate : Item) (round_trips : nat) : M nat :=
  unresolved <- call (merge cls [duplicate]) (Merge cls [duplicate]) ;;
  if length unresolved =? 0 then ret round_trips
  else raise (ValueError (__name__ cls) duplicate).

(** A computation that may also run out of stack: [None]. *)
Definition MF (A : Type) : Type :=
  state -> option (result Item A * state * list event).

(** [for sub_batch in subs: round_trips += f(sub_batch)], then
    [return round_trips] *)
Fixpoint retry_loop (f : list Item -> MF nat) (subs : list (list Item))
    (round_trips : nat) : MF nat := fun st =>
  match subs with
  | [] => Some (Ok round_trips, st, [])
  | sub_batch :: subs' =>
      match f sub_batch st with
      | None => None
      | Some (Ok r, st1, t1) =>
          match retry_loop f subs' (round_trips + r) st1 with
          | None => None
          | Some (res, st2, t2) => Some (res, st2, t1 ++ t2)
          end
      | Some (Raise e, st1, t1) => Some (Raise e, st1, t1)
      end
  end.

(** [_save_batch] with the depth of recursion it may still use. *)
Fixpoint _save_batch_rec (depth : nat) (cls : Model) (batch : list Item) : MF nat :=
  fun st =>
  match depth with
  | 0 => None
  | S depth' =>
      let round_trips := 1 in
      match attempt (insert_batch cls batch) st with
      | (Ok (Ok _), st1, t1) => Some (Ok round_trips, st1, t1)
      | (Ok (Raise IntegrityError), st1, t1) =>
          match batch with
          | [duplicate] =>
              (* len(batch) == 1, duplicate = batch[0] *)
              let '(res, st2, t2) := remerge cls duplicate round_trips st1 in
              Some (res, st2, t1 ++ t2)
          | _ =>
              match retry_loop (_save_batch_rec depth' cls)
                      (split_every (sub_batch_size batch) batch) round_trips st1 with
              | None => None
              | Some (res, st2, t2) => Some (res, st2, t1 ++ t2)
              end
          end
      | (Ok (Raise e), st1, t1) => Some (Raise e, st1, t1)
      | (Raise e, st1, t1) => Some (Raise e, st1, t1)
      end
  end.

(** [_save_batch]: a batch of [n] records never needs more than
    [1 + log4_up n] nested calls ([_save_batch_rec_total] below), so the
    [RecursionError] is out of reach. *)
Definition _save_batch (cls : Model) (batch : list Item) : M nat := fun st =>
  match _save_batch_rec (S (log4_up (length batch))) cls batch st with
  | Some r => r
  | None => (Raise RecursionError, st, [])
  end.

(** The loop of [_save_batch] over its sub-batches, once the recursive calls
    are known to return: [retry_loop] without the stack. *)
Fixpoint retry (f : list Item -> M nat) (subs : list (list Item))
    (round_trips : nat) : M nat :=
  match subs with
  | [] => ret round_trips
  | sub_batch :: subs' => r <- f sub_batch ;; retry f subs' (round_trips + r)
  end.

(** The sum of the round trips of the sub-batches, taken in order: what the
    specification says the retry returns, less the failed attempt. *)
Fixpoint sum_round_trips (f : list Item -> M nat) (subs : list (list Item)) : M nat :=
  match subs with
  | [] => ret 0
  | sub_batch :: subs' =>
      r <- f sub_batch ;;
      rs <- sum_round_trips f subs' ;;
      ret (r + rs)
  end.

(** The body of the loop of [_save]; the round trips are only logged. *)
Definition save_chunk (cls : Model) (batch : list Item) : M () :=
  round_trips <- _save_batch cls batch ;;
  ret ().

Definition _save (cls : Model) : M () :=
  items <- get_bucket (__name__ cls) ;;
  set_bucket (__name__ cls) [] ;;  (* allow GC after we are done *)
  for_each (split_every BATCH_SIZE items) (save_chunk cls).

(** The optional [before_save] callback.  It is "used by unit tests to
    simulate races": it acts on the store and leaves the saver alone. *)
Definition hook : Type := Store -> result Item () * Store.

(** [if before_save: before_save()] *)
Definition run_hook (before_save : option hook) : M () :=
  match before_save with
  | Some f => call f (fun _ => BeforeSave)
  | None => ret ()
  end.

Definition save_all (before_save : option hook) : M () :=
  saving_classes <-
    filterM (fun cls =>
               bucket <- get_bucket (__name__ cls) ;;
               ret (negb (length bucket =? 0)))
            SAVING_CLASSES_ORDER ;;
  item_counts <-
    dictM (fun cls =>
             bucket <- get_items_to_add cls ;;
             ret (__name__ cls, length bucket))
          saving_classes ∅ ;;
  call (reserve saving_classes item_counts)
       (fun _ => Reserve saving_classes item_counts) ;;
  for_each saving_classes _prepare ;;
  (* Used by unit tests to simulate races *)
  run_hook before_save ;;
  for_each saving_classes _save.

(** ["%s: %d\n" % (name, count)] *)
Definition stat_line (name : string) (count : nat) : string :=
  name +:+ ": " +:+ NilZero.string_of_uint (Nat.to_uint count) +:+ newline.

(** The loop of [dump_stats]: [stat_str += ...] for each class. *)
Fixpoint dump_loop (classes : list Model) (stat_str : string) : M string :=
  match classes with
  | [] => ret stat_str
  | cls :: classes' =>
      bucket <- get_bucket (__name__ cls) ;;
      dump_loop classes' (stat_str +:+ stat_line (__name__ cls) (length bucket))
  end.

Definition dump_stats : M string := dump_loop SAVING_CLASSES_ORDER "".

(** *** The association helpers *)

Section Assocs.
(** [cls.Record], called with keyword arguments, and the [id] attribute of
    a record come from [models.py]; [depth] is an optional integer, stored as
    a field value. *)
Variable Record : Model -> list (string * Value) -> Item.
Variable id_of : Item -> Value.
Variable depth_value : option Z -> Value.

Definition add_trace_frame_leaf_assoc (message trace_frame : Item) (depth : option Z)
  : M () :=
  add (Record TraceFrameLeafAssoc
         [("trace_frame_id", id_of trace_frame); ("leaf_id", id_of message);
          ("trace_length", depth_value depth)]).

Definition add_issue_instance_trace_frame_assoc (issue_instance trace_frame : Item)
  : M () :=
  add (Record IssueInstanceTraceFrameAssoc
         [("issue_instance_id", id_of issue_instance);
          ("trace_frame_id", id_of trace_frame)]).

Definition add_issue_instance_shared_text_assoc (issue_instance shared_text : Item)
  : M () :=
  add (Record IssueInstanceSharedTextAssoc
         [("issue_instance_id", id_of issue_instance);
          ("shared_text_id", id_of shared_text)]).

Definition add_trace_frame_annotation_trace_frame_assoc
    (trace_frame_annotation trace_frame : Item) : M () :=
  add (Record TraceFrameAnnotationTraceFrameAssoc
         [("trace_frame_annotation_id", id_of trace_frame_annotation);
          ("trace_frame_id", id_of trace_frame)]).
End Assocs.

(** *** Reading a trace *)

(** The batches of the insert attempts of a trace, in order: each is one
    round trip. *)
Definition attempts (t : list event) : list (list Item) :=
  omap (fun ev => match ev with BulkInsert _ batch _ => Some batch | _ => None end) t.

Definition attempt_sizes (t : list event) : list nat := length <$> attempts t.

(** The records a trace has dealt with, in order: those of the insert
    attempts that committed and those a re-merge resolved. *)
Definition handled (t : list event) : list Item :=
  concat (omap (fun ev => match ev with
                          | BulkInsert _ batch (Ok _) => Some batch
                          | Merge _ items (Ok []) => Some items
                          | _ => None
                          end) t).

(** The batches whose insert attempt raised a uniqueness conflict. *)
Definition conflicts (t : list event) : list (list Item) :=
  omap (fun ev => match ev with
                  | BulkInsert _ batch (Raise IntegrityError) => Some batch
                  | _ => None
                  end) t.

(** The re-merges of a trace: the records and what was left unresolved. *)
Definition remerges (t : list event) : list (list Item * result Item (list Item)) :=
  omap (fun ev => match ev with
                  | Merge _ items unresolved => Some (items, unresolved)
                  | _ => None
                  end) t.

(** Every re-merge of a trace is on one record and comes right after the
    insert attempt of that record alone, which raised a uniqueness conflict. *)
Definition remerge_after_conflict (t : list event) : Prop :=
  forall i cls items unresolved,
    t !! i = Some (Merge cls items unresolved) ->
    exists j duplicate,
      i = S j /\ items = [duplicate] /\
      t !! j = Some (BulkInsert cls [duplicate] (Raise IntegrityError)).

(** Every insert attempt of one record that raised a uniqueness conflict is
    followed at once by the re-merge of that record. *)
Definition conflict_then_remerge (t : list event) : Prop :=
  forall j cls duplicate,
    t !! j = Some (BulkInsert cls [duplicate] (Raise IntegrityError)) ->
    exists unresolved, t !! S j = Some (Merge cls [duplicate] unresolved).

(** What holds of every outcome of the writing of [batch]: the insert
    attempts are few, none is empty and each sends records of the batch in
    their order; the re-merges are those of the single records that
    conflicted; the records dealt with are the first records of the batch:
    all of them when the writing returns, its result being the number of
    insert attempts, and not all of them when it raises. *)
Definition retry_post (batch : list Item)
    (o : result Item nat * state * list event) : Prop :=
  let '(r, _, t) := o in
  length (attempts t) + 1 <= 2 * length batch /\
  Forall (fun b => b <> [] /\ b `sublist_of` batch) (attempts t) /\
  (remerge_after_conflict t /\ conflict_then_remerge t) /\
  handled t `prefix_of` batch /\
  match r with
  | Ok n => handled t = batch /\ n = length (attempts t)
  | Raise _ => length (handled t) < length batch
  end.


Definition is_reservation (ev : event) : Prop :=
  match ev with
  | Reserve _ _ => True
  | _ => False
  end.

(** Two items have the same set of field keys. *)
Definition same_key_set (cls : Model) (a b : Item) : Prop :=
  forall k, k ∈ field_keys cls a <-> k ∈ field_keys cls b.

(** The items between two items with the same set of field keys have that
    set too: what the specification asks of the prepared sequence. *)
Definition grouped_by_key_set (cls : Model) (items : list Item) : Prop :=
  forall i m j a b c,
    i <= m <= j ->
    items !! i = Some a -> items !! m = Some b -> items !! j = Some c ->
    same_key_set cls a c -> same_key_set cls b a.

(** The items between two items with the same list of field keys have that
    list too. *)
Definition grouped_by_keys (cls : Model) (items : list Item) : Prop :=
  forall i m j a b c,
    i <= m <= j ->
    items !! i = Some a -> items !! m = Some b -> items !! j = Some c ->
    field_keys cls a = field_keys cls c -> field_keys cls b = field_keys cls a.


(** The record type an event prepares, and the one it writes (an insert
    attempt or the re-merge of a conflicting record). *)
Definition prepares (ev : event) : option Model :=
  match ev with
  | Prepare cls _ => Some cls
  | _ => None
  end.

Definition writes (ev : event) : option Model :=
  match ev with
  | BulkInsert cls _ _ | Merge cls _ _ => Some cls
  | _ => None
  end.

(** The place of an event in the course of [save_all]: the reservation, the
    preparation of each class in order, the callback, the writing of each
    class in order. *)
Definition phase (ev : event) : nat :=
  match ev with
  | Reserve _ _ => 0
  | Prepare cls _ => 1 + class_index cls
  | BeforeSave => 1 + length SAVING_CLASSES_ORDER
  | BulkInsert cls _ _ | Merge cls _ _ =>
      2 + length SAVING_CLASSES_ORDER + class_index cls
  end.

(** The error a re-merge announces when it leaves a record unresolved. *)
Definition fatal_of (ev : event) : option (exception Item) :=
  match ev with
  | Merge cls [duplicate] (Ok (_ :: _)) => Some (ValueError (__name__ cls) duplicate)
  | _ => None
  end.

(** What holds of every outcome of a write of class [cls] started in state
    [st]: the buffers are left alone, every event is a write of [cls], and an
    unresolved re-merge is the last event and decides the error raised. *)
Definition write_post {A} (cls : Model) (st : state)
    (o : result Item A * state * list event) : Prop :=
  let '(r, st', t) := o in
  saving st' = saving st /\
  Forall (fun ev => writes ev = Some cls) t /\
  (forall i ev e, t !! i = Some ev -> fatal_of ev = Some e ->
                  r = Raise e /\ S i = length t).

Definition phase_le (a b : event) : Prop := phase a <= phase b.

(** The trace of an outcome. *)
Definition trace_of {A} (o : result Item A * state * list event) : list event := o.2.

(** What holds of the loop [for cls in classes: self._save(...)]: a bucket is
    either untouched or emptied, a loop that returns has emptied the bucket of
    each of its classes, every event writes a class of the loop whose bucket
    is empty at the end, the events come in the order of the classes, and an
    unresolved re-merge is the last event and decides the error raised. *)
Definition save_loop_post (classes : list Model) (st : state)
    (o : result Item () * state * list event) : Prop :=
  let '(r, st', t) := o in
  (forall k, saving st' !! k = saving st !! k \/ saving st' !! k = Some []) /\
  (r = Ok () -> forall cls, cls ∈ classes -> saving st' !! __name__ cls = Some []) /\
  Forall (fun ev => exists cls, cls ∈ classes /\ writes ev = Some cls /\
                                saving st' !! __name__ cls = Some []) t /\
  StronglySorted phase_le t /\
  (forall i ev e, t !! i = Some ev -> fatal_of ev = Some e ->
                  r = Raise e /\ S i = length t).

(** What holds of the loop [for cls in classes: self._prepare(...)]: only the
    buckets of its classes change, no bucket disappears, and every event
    prepares a class of the loop, in the order of the classes. *)
Definition prepare_loop_post (classes : list Model) (st : state)
    (o : result Item () * state * list event) : Prop :=
  let '(r, st', t) := o in
  (forall k, k ∉ __name__ <$> classes -> saving st' !! k = saving st !! k) /\
  (forall k, is_Some (saving st !! k) -> is_Some (saving st' !! k)) /\
  Forall (fun ev => exists cls, cls ∈ classes /\ prepares ev = Some cls) t /\
  StronglySorted phase_le t.

(** The classes of a list come in the order of [SAVING_CLASSES_ORDER]. *)
Definition in_saving_order (classes : list Model) : Prop :=
  StronglySorted (fun a b => class_index a < class_index b) classes /\
  Forall (fun cls => cls ∈ SAVING_CLASSES_ORDER) classes.


(** Every bucket of the saver is empty. *)
Definition all_buckets_empty (sv : gmap string (list Item)) : Prop :=
  forall cls, cls ∈ SAVING_CLASSES_ORDER -> sv !! __name__ cls = Some [].

(** *** Reading the buffers *)

(** The bucket of a class (empty when the key is missing). *)
Definition bucket_of (sv : gmap string (list Item)) (cls : Model) : list Item :=
  default [] (sv !! __name__ cls).

(** Every class of [SAVING_CLASSES_ORDER] has its bucket, as [__init__]
    leaves them. *)
Definition saver_wf (sv : gmap string (list Item)) : Prop :=
  Forall (fun cls => is_Some (sv !! __name__ cls)) SAVING_CLASSES_ORDER.

(** The value of [saving_classes] in [save_all]. *)
Definition saving_classes_of (sv : gmap string (list Item)) : list Model :=
  filter (fun cls => negb (length (bucket_of sv cls) =? 0)) SAVING_CLASSES_ORDER.

(** The value of [item_counts] in [save_all]. *)
Definition item_counts_of (sv : gmap string (list Item)) (classes : list Model)
  : gmap string nat :=
  foldl (fun acc cls => <[__name__ cls := length (bucket_of sv cls)]> acc) ∅ classes.

End BulkSaver.

Notation "x <- m ;; k" := (bind m (fun x => k))
  (at level 20, m at level 99, k at level 200, only parsing).
Notation "m ;; k" := (bind m (fun _ => k))
  (at level 100, k at level 200, only parsing, right associativity).

(** ** A small store, to run the saver on concrete inputs *)

Module KeyStore.

(** An item: its model, its unique key and the names of its populated
    fields, in the order [to_dict] lists them. *)
Record item : Type := {
  item_model : Model;
  item_key : nat;
  item_columns : list string;
}.

(** The committed rows: the class and the unique key of each. *)
Definition table : Type := list (Model * nat).

Definition row_of (it : item) : list (string * nat) :=
  map (fun c => (c, item_key it)) (item_columns it).

Definition row_key (row : list (string * nat)) : nat :=
  match row with
  | (_, v) :: _ => v
  | [] => 0
  end.

(** A bulk insert conflicts when two of its rows share a key or when one of
    its keys is already committed for the class; nothing is written then. *)
Definition conflict (cls : Model) (keys : list nat) (rows : table) : bool :=
  negb (bool_decide (NoDup keys)) || existsb (fun k => bool_decide ((cls, k) ∈ rows)) keys.

Definition insert (cls : Model) (rows : list (list (string * nat))) (t : table)
  : result item () * table :=
  let keys := map row_key rows in
  if conflict cls keys t then (Raise IntegrityError, t)
  else (Ok (), t ++ map (pair cls) keys).

(** [merge]: an item whose key is committed is resolved against that row,
    the others are returned.  With [resolves = false] the merge rule is
    defective and returns every item. *)
Definition unresolved (resolves : bool) (cls : Model) (items : list item) (t : table)
  : list item :=
  filter (fun it => negb resolves || negb (bool_decide ((cls, item_key it) ∈ t))) items.

Definition world (resolves : bool) : World := {|
  Item := item;
  Value := nat;
  Store := table;
  model := item_model;
  to_dict := fun _ it => row_of it;
  reserve := fun _ _ t => (Ok (), t);
  prepare := fun cls items t => (Ok (unresolved resolves cls items t), t);
  bulk_insert_mappings := insert;
  merge := fun cls items t => (Ok (unresolved resolves cls items t), t);
|}.

Definition mk (cls : Model) (k : nat) : item :=
  {| item_model := cls; item_key := k; item_columns := ["id"] |}.

Definition mk_state (resolves : bool) (t : table) (saving : gmap string (list item))
  : @state (world resolves) :=
  @Build_state (world resolves) t saving.

(** A new saver over a store with the given rows. *)
Definition fresh (resolves : bool) (t : table) : @state (world resolves) :=
  mk_state resolves t (@__init__ (world resolves)).

(** The saver after [add] of each of the items, over a store with the
    given rows. *)
Definition pending (resolves : bool) (t : table) (items : list item)
  : @state (world resolves) :=
  (@for_each (world resolves) item items (@add (world resolves)) (fresh resolves t)).1.2.

(** Eight records of one class, with the keys 0 to 7. *)
Definition batch8 : list item := mk SharedText <$> seq 0 8.

(** Records with the same keys in another order. *)
Definition mk_cols (cls : Model) (k : nat) (cols : list string) : item :=
  {| item_model := cls; item_key := k; item_columns := cols |}.

End KeyStore.

(** Every bucket of a concrete saver is there, by evaluation. *)
Ltac saver_wf_run :=
  unfold saver_wf, SAVING_CLASSES_ORDER;
  repeat (constructor; [vm_compute; by eexists|]); constructor.

(** * Properties *)

(** ** The helpers on small inputs *)

Example split_every_5 : split_every 2 [1; 2; 3; 4; 5] = [[1; 2]; [3; 4]; [5]].
Proof. reflexivity. Qed.

Example split_every_exact : split_every 2 [1; 2; 3; 4] = [[1; 2]; [3; 4]].
Proof. reflexivity. Qed.

Example split_every_0 : split_every 0 [1; 2; 3] = [].
Proof. reflexivity. Qed.

Example neg_floordiv_neg_values :
  map (fun a => neg_floordiv_neg a 4) [0; 1; 4; 5; 8; 30000]%Z = [0; 1; 1; 2; 2; 7500]%Z.
Proof. reflexivity. Qed.

Example log4_up_values : map log4_up [0; 1; 2; 4; 5; 16; 17] = [0; 0; 1; 1; 2; 2; 3].
Proof. reflexivity. Qed.

Example keys_compare_values :
  map (fun p => keys_compare p.1 p.2)
      [(["a"; "b"], ["a"; "c"]); (["a"; "c"], ["b"; "a"]); (["a"], ["a"; "b"]);
       (["b"], ["a"; "b"]); (["id"], ["id"])]
  = [Lt; Lt; Lt; Gt; Eq].
Proof. reflexivity. Qed.

(** Equal keys keep their order. *)
Example sorted_stable_values :
  sorted Nat.leb fst [(2, "x"); (1, "y"); (2, "z"); (1, "w")]
  = [(1, "y"); (1, "w"); (2, "x"); (2, "z")].
Proof. reflexivity. Qed.

(** ** Arithmetic of the split *)

Lemma neg_floordiv_neg_ceil (a : nat) :
  Z.to_nat (neg_floordiv_neg (Z.of_nat a) BATCH_SPLIT_FACTOR) = ceil_div a 4.
Proof.
  unfold neg_floordiv_neg, ceil_div, BATCH_SPLIT_FACTOR. simpl (4 - 1).
  change (- (4))%Z with (-4)%Z.
  apply Nat2Z.inj. rewrite Nat2Z.inj_div. change (Z.of_nat 4) with 4%Z.
  rewrite Nat2Z.inj_add. change (Z.of_nat 3) with 3%Z.
  generalize (Z.of_nat a) (Nat2Z.is_nonneg a). intros z Hz.
  Z.to_euclidean_division_equations. lia.
Qed.

Lemma ceil_div_4_bounds (n : nat) :
  n <= 4 * ceil_div n 4 /\ 4 * ceil_div n 4 < n + 4.
Proof.
  unfold ceil_div. change (4 - 1) with 3.
  pose proof (Nat.div_mod_eq (n + 3) 4).
  pose proof (Nat.mod_upper_bound (n + 3) 4 ltac:(lia)). lia.
Qed.

Lemma ceil_div_4_pos (n : nat) : 0 < n -> 0 < ceil_div n 4.
Proof. pose proof (ceil_div_4_bounds n). lia. Qed.

Lemma ceil_div_4_lt (n : nat) : 1 < n -> ceil_div n 4 < n.
Proof. pose proof (ceil_div_4_bounds n). lia. Qed.

Lemma log4_up_aux_fuel (fuel1 fuel2 n : nat) :
  n <= fuel1 -> n <= fuel2 -> log4_up_aux fuel1 n = log4_up_aux fuel2 n.
Proof.
  revert fuel2 n. induction fuel1 as [|fuel1 IH]; intros fuel2 n H1 H2.
  - replace n with 0 by lia. destruct fuel2; reflexivity.
  - destruct fuel2 as [|fuel2].
    + replace n with 0 by lia. reflexivity.
    + simpl. destruct (n <=? 1) eqn:E; [reflexivity|].
      apply Nat.leb_gt in E. f_equal.
      pose proof (ceil_div_4_lt n E). apply IH; lia.
Qed.

Lemma log4_up_small (n : nat) : n <= 1 -> log4_up n = 0.
Proof.
  intros H. unfold log4_up. destruct n as [|n]; [reflexivity|].
  simpl. destruct n; [reflexivity|lia].
Qed.

Lemma log4_up_step (n : nat) : 1 < n -> log4_up n = S (log4_up (ceil_div n 4)).
Proof.
  intros H. unfold log4_up at 1. destruct n as [|n]; [lia|].
  simpl. destruct n as [|n]; [lia|]. f_equal.
  pose proof (ceil_div_4_lt (S (S n)) H).
  apply log4_up_aux_fuel; lia.
Qed.

Lemma log4_up_le_pow (d n : nat) : n <= 4 ^ d -> log4_up n <= d.
Proof.
  revert n. induction d as [|d IH]; intros n H.
  - simpl in H. rewrite log4_up_small; lia.
  - destruct (Nat.le_gt_cases n 1) as [Hn|Hn].
    + rewrite log4_up_small; lia.
    + rewrite log4_up_step by exact Hn.
      apply le_n_S, IH. rewrite Nat.pow_succ_r' in H.
      pose proof (ceil_div_4_bounds n). lia.
Qed.

Lemma log4_up_upper (n : nat) : n <= 4 ^ log4_up n.
Proof.
  induction n as [n IH] using lt_wf_ind.
  destruct (Nat.le_gt_cases n 1) as [Hn|Hn].
  - rewrite log4_up_small by exact Hn. simpl. lia.
  - rewrite log4_up_step by exact Hn. rewrite Nat.pow_succ_r'.
    pose proof (IH _ (ceil_div_4_lt n Hn)).
    pose proof (ceil_div_4_bounds n). lia.
Qed.

Lemma log4_up_lower (n : nat) : 1 < n -> 4 ^ (log4_up n - 1) < n.
Proof.
  induction n as [n IH] using lt_wf_ind. intros Hn.
  rewrite log4_up_step by exact Hn. simpl. rewrite Nat.sub_0_r.
  destruct (Nat.le_gt_cases (ceil_div n 4) 1) as [Hc|Hc].
  - rewrite log4_up_small by exact Hc. simpl. lia.
  - pose proof (IH _ (ceil_div_4_lt n Hn) Hc) as IH'.
    rewrite (log4_up_step _ Hc) in *.
    replace (S (log4_up (ceil_div (ceil_div n 4) 4)) - 1)
      with (log4_up (ceil_div (ceil_div n 4) 4)) in IH' by lia.
    rewrite Nat.pow_succ_r'. pose proof (ceil_div_4_bounds n). lia.
Qed.

Lemma log4_up_mono (m n : nat) : m <= n -> log4_up m <= log4_up n.
Proof.
  intros H. apply log4_up_le_pow. pose proof (log4_up_upper n). lia.
Qed.

Lemma StronglySorted_lookup_lt_gen {A} (R : relation A) (l : list A) i j x y :
  StronglySorted R l -> i < j -> l !! i = Some x -> l !! j = Some y -> R x y.
Proof.
  intros Hs. revert i j. induction Hs as [|a l Hs IH Ha]; intros i j Hij Hi Hj; [done|].
  destruct j as [|j]; [lia|]. destruct i as [|i]; simpl in *.
  - injection Hi as ->. rewrite Forall_forall in Ha. apply Ha.
    apply list_elem_of_lookup. by exists j.
  - apply (IH i j); [lia|done|done].
Qed.

(** ** The order of the sort keys *)

Lemma ascii_compare_refl (a : Ascii.ascii) : Ascii.compare a a = Eq.
Proof. apply N.compare_refl. Qed.

Lemma ascii_compare_trans (a b c : Ascii.ascii) :
  Ascii.compare a b = Lt -> Ascii.compare b c = Lt -> Ascii.compare a c = Lt.
Proof. unfold Ascii.compare. rewrite !N.compare_lt_iff. lia. Qed.

Lemma string_compare_refl (s : string) : String.compare s s = Eq.
Proof. induction s as [|a s IH]; [done|]. simpl. by rewrite ascii_compare_refl. Qed.

Lemma string_compare_trans (a b c : string) :
  String.compare a b = Lt -> String.compare b c = Lt -> String.compare a c = Lt.
Proof.
  revert b c. induction a as [|x a IH]; intros [|y b] [|z c]; simpl; try done.
  destruct (Ascii.compare x y) eqn:Exy; try done;
    destruct (Ascii.compare y z) eqn:Eyz; try done; intros Hab Hbc.
  - apply Ascii.compare_eq_iff in Exy, Eyz. subst.
    rewrite ascii_compare_refl. by apply (IH b c).
  - apply Ascii.compare_eq_iff in Exy. subst. by rewrite Eyz.
  - apply Ascii.compare_eq_iff in Eyz. subst. by rewrite Exy.
  - by rewrite (ascii_compare_trans _ _ _ Exy Eyz).
Qed.

Section Lex.
Context {T : Type} (cmp : T -> T -> comparison).
Hypothesis cmp_refl : forall a, cmp a a = Eq.
Hypothesis cmp_eq : forall a b, cmp a b = Eq -> a = b.
Hypothesis cmp_antisym : forall a b, cmp a b = CompOpp (cmp b a).
Hypothesis cmp_trans : forall a b c, cmp a b = Lt -> cmp b c = Lt -> cmp a c = Lt.

Lemma lex_compare_refl (a : list T) : lex_compare cmp a a = Eq.
Proof. induction a as [|x a IH]; [done|]. simpl. by rewrite cmp_refl. Qed.

Lemma lex_compare_eq (a b : list T) : lex_compare cmp a b = Eq -> a = b.
Proof.
  revert b. induction a as [|x a IH]; intros [|y b]; simpl; try done.
  destruct (cmp x y) eqn:E; try done. intros H.
  apply cmp_eq in E. apply IH in H. by subst.
Qed.

Lemma lex_compare_antisym (a b : list T) :
  lex_compare cmp a b = CompOpp (lex_compare cmp b a).
Proof.
  revert b. induction a as [|x a IH]; intros [|y b]; simpl; try done.
  rewrite (cmp_antisym y x). destruct (cmp x y); simpl; [apply IH|done|done].
Qed.

Lemma lex_compare_trans (a b c : list T) :
  lex_compare cmp a b = Lt -> lex_compare cmp b c = Lt -> lex_compare cmp a c = Lt.
Proof.
  revert b c. induction a as [|x a IH]; intros [|y b] [|z c]; simpl; try done.
  destruct (cmp x y) eqn:Exy; try done;
    destruct (cmp y z) eqn:Eyz; try done; intros Hab Hbc.
  - apply cmp_eq in Exy, Eyz. subst. rewrite cmp_refl. by apply (IH b c).
  - apply cmp_eq in Exy. subst. by rewrite Eyz.
  - apply cmp_eq in Eyz. subst. by rewrite Exy.
  - by rewrite (cmp_trans _ _ _ Exy Eyz).
Qed.

End Lex.

Lemma keys_leb_total (a b : list string) : keys_leb a b = false -> keys_leb b a = true.
Proof.
  unfold keys_leb, keys_compare.
  rewrite (lex_compare_antisym String.compare String.compare_antisym b a).
  by destruct (lex_compare String.compare a b).
Qed.

Lemma keys_leb_antisym (a b : list string) :
  keys_leb a b = true -> keys_leb b a = true -> a = b.
Proof.
  unfold keys_leb, keys_compare.
  rewrite (lex_compare_antisym String.compare String.compare_antisym b a).
  destruct (lex_compare String.compare a b) eqn:E; simpl; try done.
  intros _ _. eapply lex_compare_eq; [|exact E]. apply String.compare_eq_iff.
Qed.

Lemma keys_leb_trans (a b c : list string) :
  keys_leb a b = true -> keys_leb b c = true -> keys_leb a c = true.
Proof.
  unfold keys_leb, keys_compare.
  destruct (lex_compare String.compare a b) eqn:Eab; try done;
    destruct (lex_compare String.compare b c) eqn:Ebc; try done; intros _ _.
  - apply (lex_compare_eq _ String.compare_eq_iff) in Eab, Ebc. subst.
    by rewrite (lex_compare_refl _ string_compare_refl).
  - apply (lex_compare_eq _ String.compare_eq_iff) in Eab. subst. by rewrite Ebc.
  - apply (lex_compare_eq _ String.compare_eq_iff) in Ebc. subst. by rewrite Eab.
  - by rewrite (lex_compare_trans _ string_compare_refl String.compare_eq_iff
                  string_compare_trans _ _ _ Eab Ebc).
Qed.

(** ** [sorted] *)

Section SortedFacts.
Context {A K : Type} (leb : K -> K -> bool) (key : A -> K).
Hypothesis leb_total : forall a b, leb a b = false -> leb b a = true.
Hypothesis leb_trans : forall a b c, leb a b = true -> leb b c = true -> leb a c = true.

#[local] Abbreviation key_le := (key_le leb key).

Lemma insert_sorted_perm (x : A) (l : list A) : insert_sorted leb key x l ≡ₚ x :: l.
Proof.
  induction l as [|y l IH]; [done|]. simpl.
  destruct (leb (key x) (key y)); [done|]. rewrite IH. apply Permutation_swap.
Qed.

Lemma sorted_perm (l : list A) : sorted leb key l ≡ₚ l.
Proof.
  induction l as [|x l IH]; [done|]. simpl. by rewrite insert_sorted_perm, IH.
Qed.

Lemma insert_sorted_sorted (x : A) (l : list A) :
  StronglySorted key_le l -> StronglySorted key_le (insert_sorted leb key x l).
Proof.
  induction 1 as [|y l Hs IH Hy]; simpl; [by repeat constructor|].
  destruct (leb (key x) (key y)) eqn:E.
  - constructor; [by constructor|]. constructor; [done|].
    eapply Forall_impl; [exact Hy|]. intros z Hz. by eapply leb_trans.
  - constructor; [done|].
    rewrite (insert_sorted_perm x l). constructor; [|done]. by apply leb_total.
Qed.

Lemma sorted_sorted (l : list A) : StronglySorted key_le (sorted leb key l).
Proof.
  induction l as [|x l IH]; [constructor|]. simpl. by apply insert_sorted_sorted.
Qed.

(** The sort is stable: the items of one key keep their order. *)
Lemma insert_sorted_stable `{EqDecision K} (k : K) (x : A) (l : list A) :
  filter (fun y => key y = k) (insert_sorted leb key x l)
  = filter (fun y => key y = k) (x :: l).
Proof.
  induction l as [|y l IH]; [done|]. simpl.
  destruct (leb (key x) (key y)) eqn:E; [done|].
  rewrite filter_cons, IH, !filter_cons.
  destruct (decide (key y = k)) as [Hy|Hy]; [|done].
  destruct (decide (key x = k)) as [Hx|Hx]; [|done].
  rewrite Hx, Hy in E.
  destruct (leb k k) eqn:Ek; [done|]. by rewrite (leb_total _ _ Ek) in Ek.
Qed.

Lemma sorted_stable `{EqDecision K} (k : K) (l : list A) :
  filter (fun y => key y = k) (sorted leb key l) = filter (fun y => key y = k) l.
Proof.
  induction l as [|x l IH]; [done|]. simpl.
  by rewrite insert_sorted_stable, !filter_cons, IH.
Qed.

(** In a sorted list the items between two items of one key have that key,
    when the order of the keys is antisymmetric. *)
Lemma sorted_contiguous (l : list A) i m j a b c :
  (forall k1 k2, leb k1 k2 = true -> leb k2 k1 = true -> k1 = k2) ->
  StronglySorted key_le l ->
  i <= m <= j -> l !! i = Some a -> l !! m = Some b -> l !! j = Some c ->
  key a = key c -> key b = key a.
Proof.
  intros Hanti Hs [Him Hmj] Hi Hm Hj Hac.
  assert (forall p q x y, p <= q -> l !! p = Some x -> l !! q = Some y -> key_le x y)
    as Hle.
  { intros p q x y Hpq Hp Hq. destruct (decide (p = q)) as [-> | Hne].
    - rewrite Hp in Hq. injection Hq as ->. unfold key_le.
      destruct (leb (key y) (key y)) eqn:E; [done|]. by rewrite (leb_total _ _ E) in E.
    - eapply (StronglySorted_lookup_lt_gen key_le l p q); [done|lia|done|done]. }
  pose proof (Hle _ _ _ _ Him Hi Hm) as H1.
  pose proof (Hle _ _ _ _ Hmj Hm Hj) as H2.
  unfold key_le in *. rewrite <- Hac in H2. symmetry. by apply Hanti.
Qed.

End SortedFacts.

(** ** [split_every] *)

Section SplitEvery.
Context {A : Type}.
Implicit Types (l piece : list A) (n fuel : nat).

Lemma split_every_aux_nil fuel n : split_every_aux fuel n (@nil A) = [].
Proof. destruct fuel, n; reflexivity. Qed.

Lemma take_nil_inv n l : 0 < n -> take n l = [] -> l = [].
Proof. destruct n, l; simpl; intros; try lia; congruence. Qed.

Lemma split_every_aux_step fuel n l :
  0 < n -> l <> [] ->
  split_every_aux (S fuel) n l = take n l :: split_every_aux fuel n (drop n l).
Proof.
  intros Hn Hl. cbn [split_every_aux].
  destruct (take n l) eqn:E; [|reflexivity].
  contradiction Hl. eapply take_nil_inv; eassumption.
Qed.

Lemma split_every_aux_fuel fuel1 fuel2 n l :
  0 < n -> length l <= fuel1 -> length l <= fuel2 ->
  split_every_aux fuel1 n l = split_every_aux fuel2 n l.
Proof.
  intros Hn. revert fuel2 l.
  induction fuel1 as [|fuel1 IH]; intros fuel2 l H1 H2.
  - destruct l; [|simpl in H1; lia]. now rewrite !split_every_aux_nil.
  - destruct l as [|x l]; [now rewrite !split_every_aux_nil|].
    destruct fuel2 as [|fuel2]; [simpl in H2; lia|].
    rewrite !split_every_aux_step by (done || lia). f_equal.
    apply IH; rewrite length_drop; simpl in *; lia.
Qed.

Lemma split_every_nil n : split_every n (@nil A) = [].
Proof. apply split_every_aux_nil. Qed.

Lemma split_every_cons n l :
  0 < n -> l <> [] -> split_every n l = take n l :: split_every n (drop n l).
Proof.
  intros Hn Hl. unfold split_every.
  destruct l as [|x l]; [done|]. cbn [length].
  rewrite split_every_aux_step by done. f_equal.
  apply split_every_aux_fuel; [done| |lia].
  rewrite length_drop. simpl. lia.
Qed.


(** Induction along the pieces. *)
Lemma split_every_ind n (P : list A -> list (list A) -> Prop) :
  0 < n ->
  P [] [] ->
  (forall l, l <> [] -> P (drop n l) (split_every n (drop n l)) ->
             P l (take n l :: split_every n (drop n l))) ->
  forall l, P l (split_every n l).
Proof.
  intros Hn Hnil Hcons l.
  induction l as [l IH] using (induction_ltof1 _ (@length A)). unfold ltof in IH.
  destruct (decide (length l = 0)) as [E|E].
  - apply nil_length_inv in E. subst. rewrite split_every_nil. exact Hnil.
  - assert (l <> []) as Hl by (intros ->; done).
    rewrite split_every_cons by done. apply Hcons; [done|].
    apply IH. rewrite length_drop. lia.
Qed.

Lemma concat_split_every n l : 0 < n -> concat (split_every n l) = l.
Proof.
  intros Hn. apply (split_every_ind n (fun l ps => concat ps = l)); [done|done|].
  intros l' _ IH. simpl. rewrite IH. apply take_drop.
Qed.

Lemma split_every_pieces n l :
  0 < n -> Forall (fun piece => 0 < length piece <= n) (split_every n l).
Proof.
  intros Hn.
  apply (split_every_ind n (fun _ ps => Forall (fun p => 0 < length p <= n) ps));
    [done|constructor|].
  intros l' Hl' IH. constructor; [|exact IH].
  rewrite length_take. destruct l'; [done|]. simpl. lia.
Qed.

Lemma ceil_div_0 n : 0 < n -> ceil_div 0 n = 0.
Proof. intros Hn. unfold ceil_div. apply Nat.div_small. lia. Qed.

Lemma ceil_div_step n a : 0 < n -> 0 < a -> ceil_div a n = S (ceil_div (a - n) n).
Proof.
  intros Hn Ha. unfold ceil_div.
  destruct (Nat.le_gt_cases a n) as [H|H].
  - replace (a - n) with 0 by lia.
    rewrite (Nat.div_small (0 + (n - 1))) by lia.
    symmetry. apply (Nat.div_unique _ _ _ (a - 1)); lia.
  - replace (a + (n - 1)) with (1 * n + (a - n + (n - 1))) by lia.
    rewrite Nat.div_add_l by lia. lia.
Qed.

Lemma length_split_every n l :
  0 < n -> length (split_every n l) = ceil_div (length l) n.
Proof.
  intros Hn.
  apply (split_every_ind n (fun l ps => length ps = ceil_div (length l) n)); [done| |].
  - now rewrite ceil_div_0.
  - intros l' Hl' IH. simpl. rewrite IH, length_drop.
    rewrite (ceil_div_step n (length l')); [done|done|].
    destruct l'; [done|simpl; lia].
Qed.

(** Every piece but the last is full. *)
Lemma split_every_full n l i piece :
  0 < n -> split_every n l !! i = Some piece -> S i < length (split_every n l) ->
  length piece = n.
Proof.
  intros Hn. revert i piece.
  apply (split_every_ind n (fun _ ps => forall i piece,
           ps !! i = Some piece -> S i < length ps -> length piece = n)); [done|done|].
  intros l' Hl' IH [|i] piece Hi Hlen; simpl in *.
  - injection Hi as <-. rewrite length_take.
    destruct (decide (length l' <= n)) as [Hle|]; [|lia].
    rewrite drop_ge, split_every_nil in Hlen by done. simpl in Hlen. lia.
  - eapply IH; [done|lia].
Qed.



End SplitEvery.

(** ** The recursion of [_save_batch] *)

Section SaveBatch.
Context {W : World}.
Implicit Types (cls : Model) (batch : list Item) (st : state) (depth : nat).

Lemma sub_batch_size_ceil batch : sub_batch_size batch = ceil_div (length batch) 4.
Proof. apply neg_floordiv_neg_ceil. Qed.

Lemma retry_loop_ext (f g : list Item -> MF nat) subs round_trips st r :
  (forall sub st' r', sub ∈ subs -> f sub st' = Some r' -> g sub st' = Some r') ->
  retry_loop f subs round_trips st = Some r ->
  retry_loop g subs round_trips st = Some r.
Proof.
  revert round_trips st r. induction subs as [|sub subs IH]; intros rt st r Hfg; [done|].
  assert (forall sub' st' r', sub' ∈ subs -> f sub' st' = Some r' -> g sub' st' = Some r')
    as Hfg' by (intros; eapply Hfg; [by apply list_elem_of_further|done]).
  cbn [retry_loop]. destruct (f sub st) as [[[[n|e] st1] t1]|] eqn:E; [| |done].
  - rewrite (Hfg _ _ _ ltac:(apply list_elem_of_here) E).
    destruct (retry_loop f subs (rt + n) st1) as [[[res st2] t2]|] eqn:E2; [|done].
    intros H. rewrite (IH _ _ _ Hfg' E2). exact H.
  - now rewrite (Hfg _ _ _ ltac:(apply list_elem_of_here) E).
Qed.

Lemma retry_loop_retry (f : list Item -> MF nat) (g : list Item -> M nat)
    subs round_trips st :
  (forall sub st', sub ∈ subs -> f sub st' = Some (g sub st')) ->
  retry_loop f subs round_trips st = Some (retry g subs round_trips st).
Proof.
  revert round_trips st. induction subs as [|sub subs IH]; intros rt st Hfg; [done|].
  cbn [retry_loop retry]. unfold bind. rewrite (Hfg sub st ltac:(apply list_elem_of_here)).
  destruct (g sub st) as [[[n|e] st1] t1]; [|done].
  rewrite IH by (intros; apply Hfg; by apply list_elem_of_further).
  now destruct (retry g subs (rt + n) st1) as [[res st2] t2].
Qed.

(** More stack never changes an outcome. *)
Lemma _save_batch_rec_mono depth depth' cls batch st r :
  depth <= depth' ->
  _save_batch_rec depth cls batch st = Some r ->
  _save_batch_rec depth' cls batch st = Some r.
Proof.
  revert depth' batch st r.
  induction depth as [|depth IH]; intros depth' batch st r Hle H; [done|].
  destruct depth' as [|depth']; [lia|].
  cbn [_save_batch_rec] in *.
  destruct (attempt (insert_batch cls batch) st) as [[[[[]|e]|e] st1] t1]; try done.
  destruct e; try done.
  assert (forall sub st' r', sub ∈ split_every (sub_batch_size batch) batch ->
            _save_batch_rec depth cls sub st' = Some r' ->
            _save_batch_rec depth' cls sub st' = Some r') as Hext
    by (intros; eapply IH; [lia|done]).
  destruct batch as [|x [|y batch]]; try done.
  destruct (retry_loop _ _ _ _) as [[[res st2] t2]|] eqn:E in H; [|done].
  rewrite (retry_loop_ext _ (_save_batch_rec depth' cls) _ _ _ _ Hext E). exact H.
Qed.

Lemma sub_batches_shorter batch sub :
  1 < length batch ->
  sub ∈ split_every (sub_batch_size batch) batch ->
  0 < length sub <= ceil_div (length batch) 4 /\ length sub < length batch.
Proof.
  intros Hlen Hin. rewrite sub_batch_size_ceil in Hin.
  pose proof (ceil_div_4_pos (length batch) ltac:(lia)) as Hpos.
  pose proof (split_every_pieces _ batch Hpos) as Hall.
  rewrite Forall_forall in Hall. apply Hall in Hin.
  pose proof (ceil_div_4_lt _ Hlen). lia.
Qed.

Lemma sub_batches_depth batch sub :
  1 < length batch ->
  sub ∈ split_every (sub_batch_size batch) batch ->
  S (log4_up (length sub)) <= log4_up (length batch).
Proof.
  intros Hlen Hin. destruct (sub_batches_shorter _ _ Hlen Hin) as [[_ Hle] _].
  rewrite (log4_up_step (length batch)) by done.
  apply le_n_S, log4_up_mono, Hle.
Qed.

(** A stack of [1 + log4_up (length batch)] calls is enough. *)
Lemma _save_batch_rec_total depth cls batch st :
  log4_up (length batch) < depth ->
  _save_batch_rec depth cls batch st = Some (_save_batch cls batch st).
Proof.
  revert batch st.
  induction depth as [depth IH] using lt_wf_ind. intros batch st Hd.
  assert (is_Some (_save_batch_rec (S (log4_up (length batch))) cls batch st)) as [r Hr].
  { cbn [_save_batch_rec].
    destruct (attempt (insert_batch cls batch) st) as [[[[[]|e]|e] st1] t1]; try done.
    destruct e; try done.
    destruct batch as [|x [|y batch]]; try done.
    - now destruct (remerge cls x 1 st1) as [[res st2] t2].
    - rewrite (retry_loop_retry _ (_save_batch cls)).
      + now destruct (retry _ _ _ _) as [[res st2] t2].
      + intros sub st' Hin.
        pose proof (sub_batches_depth (x :: y :: batch) sub ltac:(simpl; lia) Hin) as Hsub.
        apply IH; lia. }
  unfold _save_batch. rewrite Hr.
  eapply _save_batch_rec_mono; [|exact Hr]. lia.
Qed.

(** One step of [_save_batch], with the recursive calls as calls of
    [_save_batch] itself. *)
Lemma _save_batch_unfold cls batch st :
  _save_batch cls batch st =
  let '(r, s1) := bulk_insert_mappings cls (map (to_dict cls) batch) (store st) in
  let st1 := {| store := s1; saving := saving st |} in
  let ev := BulkInsert cls batch r in
  match r with
  | Ok _ => (Ok 1, st1, [ev])
  | Raise IntegrityError =>
      match batch with
      | [duplicate] =>
          let '(res, st2, t2) := remerge cls duplicate 1 st1 in (res, st2, ev :: t2)
      | _ =>
          let '(res, st2, t2) :=
            retry (_save_batch cls) (split_every (sub_batch_size batch) batch) 1 st1 in
          (res, st2, ev :: t2)
      end
  | Raise e => (Raise e, st1, [ev])
  end.
Proof.
  pose proof (_save_batch_rec_total (S (log4_up (length batch))) cls batch st
                ltac:(lia)) as H.
  cbn [_save_batch_rec] in H. unfold attempt, insert_batch, call in H.
  destruct (bulk_insert_mappings cls (map (to_dict cls) batch) (store st)) as [r s1].
  destruct r as [[]|e]; [congruence|].
  destruct e; try congruence.
  cbv zeta. destruct batch as [|x [|y batch]].
  - simpl in *. congruence.
  - simpl in H. destruct (remerge cls x 1 _) as [[res st2] t2]. congruence.
  - rewrite (retry_loop_retry _ (_save_batch cls)) in H.
    + simpl app in H. destruct (retry _ _ _ _) as [[res st2] t2]. congruence.
    + intros sub st' Hin.
      pose proof (sub_batches_depth (x :: y :: batch) sub ltac:(simpl; lia) Hin).
      apply _save_batch_rec_total. lia.
Qed.

Lemma bind_unfold {A B} (m : M A) (k : A -> M B) st :
  bind m k st =
  match m st with
  | (Ok a, st1, t1) => let '(r, st2, t2) := k a st1 in (r, st2, t1 ++ t2)
  | (Raise e, st1, t1) => (Raise e, st1, t1)
  end.
Proof. reflexivity. Qed.

Lemma bind_ret_l {A B} (a : A) (k : A -> M B) st : bind (ret a) k st = k a st.
Proof. unfold bind, ret. now destruct (k a st) as [[r st2] t2]. Qed.

Lemma bind_assoc {A B C} (m : M A) (k : A -> M B) (h : B -> M C) st :
  bind (bind m k) h st = bind m (fun a => bind (k a) h) st.
Proof.
  unfold bind. destruct (m st) as [[[a|e] st1] t1]; [|reflexivity].
  destruct (k a st1) as [[[b|e] st2] t2]; [|reflexivity].
  destruct (h b st2) as [[r st3] t3]. now rewrite app_assoc.
Qed.

Lemma bind_ext {A B} (m : M A) (k k' : A -> M B) st :
  (forall a st', k a st' = k' a st') -> bind m k st = bind m k' st.
Proof.
  intros H. unfold bind. destruct (m st) as [[[a|e] st1] t1]; [|reflexivity].
  now rewrite H.
Qed.

Lemma retry_sum (f : list Item -> M nat) subs round_trips st :
  retry f subs round_trips st =
  (rs <- sum_round_trips f subs ;; ret (round_trips + rs)) st.
Proof.
  revert round_trips st. induction subs as [|sub subs IH]; intros rt st.
  - cbn [retry sum_round_trips]. rewrite bind_ret_l. now rewrite Nat.add_0_r.
  - cbn [retry sum_round_trips]. rewrite bind_assoc. apply bind_ext.
    intros r st'. rewrite IH, bind_assoc. apply bind_ext.
    intros rs st''. rewrite bind_ret_l. now rewrite Nat.add_assoc.
Qed.

Lemma retry_ind (f : list Item -> M nat)
    (P : list (list Item) -> nat -> state -> result Item nat * state * list event -> Prop) :
  (forall acc st, P [] acc st (Ok acc, st, [])) ->
  (forall sub subs acc st e st1 t1,
     f sub st = (Raise e, st1, t1) -> P (sub :: subs) acc st (Raise e, st1, t1)) ->
  (forall sub subs acc st n st1 t1 r st2 t2,
     f sub st = (Ok n, st1, t1) -> retry f subs (acc + n) st1 = (r, st2, t2) ->
     P subs (acc + n) st1 (r, st2, t2) -> P (sub :: subs) acc st (r, st2, t1 ++ t2)) ->
  forall subs acc st, P subs acc st (retry f subs acc st).
Proof.
  intros Hnil Hraise Hok subs. induction subs as [|sub subs IH]; intros acc st; [apply Hnil|].
  cbn [retry]. rewrite bind_unfold.
  destruct (f sub st) as [[[n|e] st1] t1] eqn:E.
  - destruct (retry f subs (acc + n) st1) as [[r st2] t2] eqn:E2.
    eapply Hok; [exact E|exact E2|]. rewrite <- E2. apply IH.
  - now apply Hraise.
Qed.

(** Reasoning along the calls of [_save_batch]: the attempt commits, it fails
    for another reason than a conflict, it conflicts on a single record, or it
    conflicts and the sub-batches are retried. *)
Lemma _save_batch_ind cls
    (P : list Item -> state -> result Item nat * state * list event -> Prop) :
  (forall batch st s1,
     bulk_insert_mappings cls (map (to_dict cls) batch) (store st) = (Ok (), s1) ->
     P batch st (Ok 1, {| store := s1; saving := saving st |},
                 [BulkInsert cls batch (Ok ())])) ->
  (forall batch st e s1,
     bulk_insert_mappings cls (map (to_dict cls) batch) (store st) = (Raise e, s1) ->
     e <> IntegrityError ->
     P batch st (Raise e, {| store := s1; saving := saving st |},
                 [BulkInsert cls batch (Raise e)])) ->
  (forall duplicate st s1,
     bulk_insert_mappings cls (map (to_dict cls) [duplicate]) (store st)
       = (Raise IntegrityError, s1) ->
     P [duplicate] st
       (let '(res, st2, t2) :=
          remerge cls duplicate 1 {| store := s1; saving := saving st |} in
        (res, st2, BulkInsert cls [duplicate] (Raise IntegrityError) :: t2))) ->
  (forall batch st s1,
     length batch <> 1 ->
     bulk_insert_mappings cls (map (to_dict cls) batch) (store st)
       = (Raise IntegrityError, s1) ->
     (forall sub st', sub ∈ split_every (sub_batch_size batch) batch ->
                      P sub st' (_save_batch cls sub st')) ->
     P batch st
       (let '(res, st2, t2) :=
          retry (_save_batch cls) (split_every (sub_batch_size batch) batch) 1
            {| store := s1; saving := saving st |} in
        (res, st2, BulkInsert cls batch (Raise IntegrityError) :: t2))) ->
  forall batch st, P batch st (_save_batch cls batch st).
Proof.
  intros Hok Hfail Hone Hsplit batch.
  induction batch as [batch IH] using (induction_ltof1 _ (@length Item)).
  unfold ltof in IH. intros st. rewrite _save_batch_unfold.
  destruct (bulk_insert_mappings cls (map (to_dict cls) batch) (store st))
    as [[[]|e] s1] eqn:E; cbv zeta.
  - now apply Hok.
  - destruct e; try (apply (Hfail _ _ _ _ E); discriminate).
    destruct batch as [|x [|y batch]].
    + apply (Hsplit [] st s1); [done|done|].
      intros sub st' Hin. rewrite split_every_nil in Hin. by apply elem_of_nil in Hin.
    + now apply Hone.
    + apply (Hsplit (x :: y :: batch) st s1); [done|done|].
      intros sub st' Hin. apply IH.
      eapply sub_batches_shorter; [|exact Hin]. simpl. lia.
Qed.

Lemma remerge_unfold cls duplicate round_trips st :
  remerge cls duplicate round_trips st =
  let '(u, s2) := merge cls [duplicate] (store st) in
  (match u with
   | Ok [] => Ok round_trips
   | Ok (_ :: _) => Raise (ValueError (__name__ cls) duplicate)
   | Raise e => Raise e
   end,
   {| store := s2; saving := saving st |},
   [Merge cls [duplicate] u]).
Proof.
  unfold remerge, bind, call.
  destruct (merge cls [duplicate] (store st)) as [[[|u us]|e] s2]; reflexivity.
Qed.

Lemma attempts_app (t1 t2 : list event) : attempts (t1 ++ t2) = attempts t1 ++ attempts t2.
Proof. apply omap_app. Qed.

Lemma write_post_app {A B} cls st st1 (r1 : A) t1 (r : result Item B) st2 t2 :
  write_post cls st (Ok r1, st1, t1) ->
  write_post cls st1 (r, st2, t2) ->
  write_post cls st (r, st2, t1 ++ t2).
Proof.
  intros (Hs1 & Hw1 & Hf1) (Hs2 & Hw2 & Hf2). split; [congruence|].
  split; [now apply Forall_app|].
  intros i ev e Hi Hfat. rewrite length_app.
  apply lookup_app_Some in Hi as [Hi|[Hge Hi]].
  - destruct (Hf1 _ _ _ Hi Hfat) as [? _]. discriminate.
  - destruct (Hf2 _ _ _ Hi Hfat) as [-> Hlen]. split; [done|lia].
Qed.

(** The outcomes of [_save_batch]. *)
Lemma _save_batch_post cls batch st : write_post cls st (_save_batch cls batch st).
Proof.
  revert batch st. apply (_save_batch_ind cls (fun _ st o => write_post cls st o)).
  - intros batch st s1 _. split; [done|]. split; [by repeat constructor|].
    intros [|[|i]] ev e Hi Hfat; simplify_eq/=.
  - intros batch st e s1 _ _. split; [done|]. split; [by repeat constructor|].
    intros [|[|i]] ev e' Hi Hfat; simplify_eq/=.
  - intros d st s1 _. rewrite remerge_unfold. simpl.
    destruct (merge cls [d] s1) as [u s2].
    split; [done|]. split; [by repeat constructor|].
    intros [|[|[|i]]] ev e Hi Hfat; simplify_eq/=.
    destruct u as [[|u us]|e']; simplify_eq/=. done.
  - intros batch st s1 _ _ IH.
    set (st1 := {| store := s1; saving := saving st |}).
    assert (write_post cls st1
              (retry (_save_batch cls) (split_every (sub_batch_size batch) batch) 1 st1))
      as Hretry.
    { revert IH. generalize (split_every (sub_batch_size batch) batch) as subs.
      generalize 1 as acc. generalize st1 as st0. intros st0 acc subs. revert subs acc st0.
      apply (retry_ind (_save_batch cls)
               (fun subs acc st0 o =>
                  (forall sub st', sub ∈ subs -> write_post cls st' (_save_batch cls sub st')) ->
                  write_post cls st0 o)).
      - intros acc st0 _. split; [done|]. split; [constructor|]. intros i ev e Hi. done.
      - intros sub subs acc st0 e st2 t2 E IH.
        rewrite <- E. apply IH. apply list_elem_of_here.
      - intros sub subs acc st0 n st2 t2 r st3 t3 E E2 IHr IH.
        eapply write_post_app.
        + rewrite <- E. apply IH. apply list_elem_of_here.
        + apply IHr. intros. apply IH. now apply list_elem_of_further. }
    destruct (retry _ _ _ _) as [[r st2] t2].
    apply (write_post_app cls st st1 () [BulkInsert cls batch (Raise IntegrityError)]);
      [|exact Hretry].
    split; [done|]. split; [by repeat constructor|].
    intros [|[|i]] ev e Hi Hfat; simplify_eq/=.
Qed.

(** The round trips [_save_batch] returns are its insert attempts. *)
Lemma _save_batch_round_trips cls batch st n st' t :
  _save_batch cls batch st = (Ok n, st', t) -> length (attempts t) = n.
Proof.
  revert batch st n st' t.
  enough (forall batch st n st' t,
            _save_batch cls batch st = (Ok n, st', t) -> length (attempts t) = n) as H
    by (intros; eapply H; eassumption).
  apply (_save_batch_ind cls
           (fun _ _ o => forall n st' t, o = (Ok n, st', t) -> length (attempts t) = n)).
  - intros batch st s1 _ n st' t [= <- _ <-]. reflexivity.
  - intros batch st e s1 _ _ n st' t [=].
  - intros d st s1 _ n st' t. rewrite remerge_unfold. simpl.
    destruct (merge cls [d] s1) as [[[|u us]|e] s2]; intros [= <- _ <-]. reflexivity.
  - intros batch st s1 _ _ IH n st' t.
    set (st1 := {| store := s1; saving := saving st |}).
    assert (forall n st' t,
              retry (_save_batch cls) (split_every (sub_batch_size batch) batch) 1 st1
                = (Ok n, st', t) -> 1 + length (attempts t) = n) as Hretry.
    { revert IH. generalize (split_every (sub_batch_size batch) batch) as subs.
      generalize 1 as acc. generalize st1 as st0. intros st0 acc subs. revert subs acc st0.
      apply (retry_ind (_save_batch cls)
               (fun subs acc st0 o =>
                  (forall sub st'', sub ∈ subs -> forall n st' t,
                      _save_batch cls sub st'' = (Ok n, st', t) -> length (attempts t) = n) ->
                  forall n st' t, o = (Ok n, st', t) -> acc + length (attempts t) = n)).
      - intros acc st0 _ n' st'' t' [= <- _ <-]. simpl. lia.
      - intros sub subs acc st0 e st2 t2 _ _ n' st'' t' [=].
      - intros sub subs acc st0 k st2 t2 r st3 t3 E E2 IHr IH n' st'' t' [= -> _ <-].
        rewrite attempts_app, length_app.
        rewrite (IH sub st0 ltac:(apply list_elem_of_here) _ _ _ E).
        assert (acc + k + length (attempts t3) = n') as <-; [|lia].
        apply (IHr ltac:(intros ? ? ?; apply IH; now apply list_elem_of_further)
                 n' st3 t3 eq_refl). }
    destruct (retry _ _ _ _) as [[r st2] t2]. intros [= -> _ <-].
    simpl. now apply (Hretry n st2 t2).
Qed.

(** C8: for every batch of at least one record [_save_batch] terminates.
    With [n] the size of the batch, a stack of [1 + log4_up n] nested calls
    always yields an outcome, the outcome of [_save_batch], and a deeper stack
    yields the same one; [log4_up n] is the logarithm of [n] in base
    [BATCH_SPLIT_FACTOR = 4], rounded up.  When [n > 1] the sub-batches have
    at least one and at most [ceil (n / 4) < n] records and need a stack that
    is one call shorter; a batch of one record is handled within the first
    call. *)
Theorem _save_batch_terminates cls batch st :
  0 < length batch ->
  let n := length batch in
  (forall depth, log4_up n < depth ->
     _save_batch_rec depth cls batch st = Some (_save_batch cls batch st)) /\
  (n <= 4 ^ log4_up n /\ (1 < n -> 4 ^ (log4_up n - 1) < n)) /\
  (1 < n ->
     sub_batch_size batch = ceil_div n 4 /\ ceil_div n 4 < n /\
     Forall (fun sub => 0 < length sub <= ceil_div n 4 /\
                        log4_up (length sub) < log4_up n)
            (split_every (sub_batch_size batch) batch)) /\
  (n = 1 -> _save_batch_rec 1 cls batch st = Some (_save_batch cls batch st)).
Proof.
  intros Hpos n. repeat split.
  - intros depth Hd. now apply _save_batch_rec_total.
  - apply log4_up_upper.
  - apply log4_up_lower.
  - apply sub_batch_size_ceil.
  - now apply ceil_div_4_lt.
  - apply Forall_forall. intros sub Hin.
    pose proof (sub_batches_shorter batch sub H Hin).
    pose proof (sub_batches_depth batch sub H Hin). subst n. lia.
  - intros Hn. apply _save_batch_rec_total. fold n. rewrite Hn.
    rewrite log4_up_small; lia.
Qed.

(** C4: a batch of more than one record whose insert raises a uniqueness
    conflict is cut by [split_every] into sub-batches of
    [ceil (len(batch) / 4)] records, a size that is never zero (the pieces are
    not empty, none is longer, all but the last are full, and together they
    are the batch); [_save_batch] is applied to each in order, from the state
    the failed attempt left, and the result is one plus the sum of the
    sub-batches' round trips. *)
Theorem _save_batch_split cls batch st s1 :
  1 < length batch ->
  bulk_insert_mappings cls (map (to_dict cls) batch) (store st)
    = (Raise IntegrityError, s1) ->
  let size := ceil_div (length batch) 4 in
  let subs := split_every size batch in
  let st1 := {| store := s1; saving := saving st |} in
  sub_batch_size batch = size /\ 0 < size /\
  concat subs = batch /\
  Forall (fun sub => 0 < length sub <= size) subs /\
  (forall i sub, subs !! i = Some sub -> S i < length subs -> length sub = size) /\
  _save_batch cls batch st =
    let '(res, st2, t2) :=
      (rs <- sum_round_trips (_save_batch cls) subs ;; ret (1 + rs)) st1 in
    (res, st2, BulkInsert cls batch (Raise IntegrityError) :: t2).
Proof.
  intros Hlen Hins size subs st1.
  assert (0 < size) as Hsize by (apply ceil_div_4_pos; lia).
  split; [apply sub_batch_size_ceil|]. split; [done|].
  split; [now apply concat_split_every|].
  split; [now apply split_every_pieces|].
  split; [intros i sub; now apply split_every_full|].
  rewrite _save_batch_unfold, Hins. cbv zeta.
  rewrite sub_batch_size_ceil. fold size subs st1.
  rewrite retry_sum.
  destruct batch as [|x [|y batch]]; [simpl in Hlen; lia|simpl in Hlen; lia|].
  reflexivity.
Qed.

End SaveBatch.

(** ** The course of [save_all] *)

Section SaveAll.
Context {W : World}.
Implicit Types (cls : Model) (st : state) (sv : gmap string (list Item)).

Lemma for_each_ind {A} (body : A -> M ())
    (P : list A -> state -> result Item () * state * list event -> Prop) :
  (forall st, P [] st (Ok (), st, [])) ->
  (forall x l st e st1 t1,
     body x st = (Raise e, st1, t1) -> P (x :: l) st (Raise e, st1, t1)) ->
  (forall x l st st1 t1 r st2 t2,
     body x st = (Ok (), st1, t1) -> for_each l body st1 = (r, st2, t2) ->
     P l st1 (r, st2, t2) -> P (x :: l) st (r, st2, t1 ++ t2)) ->
  forall l st, P l st (for_each l body st).
Proof.
  intros Hnil Hraise Hok l. induction l as [|x l IH]; intros st; [apply Hnil|].
  cbn [for_each]. rewrite bind_unfold.
  destruct (body x st) as [[[[]|e] st1] t1] eqn:E.
  - destruct (for_each l body st1) as [[r st2] t2] eqn:E2.
    eapply Hok; [exact E|exact E2|]. rewrite <- E2. apply IH.
  - now apply Hraise.
Qed.

Lemma bind_pure {A B} (m : M A) (k : A -> M B) a st :
  m st = (Ok a, st, []) -> bind m k st = k a st.
Proof. intros H. rewrite bind_unfold, H. now destruct (k a st) as [[r st2] t2]. Qed.

Lemma bind_raise {A B} (m : M A) (k : A -> M B) e st1 t1 st :
  m st = (Raise e, st1, t1) -> bind m k st = (Raise e, st1, t1).
Proof. intros H. now rewrite bind_unfold, H. Qed.

Lemma get_bucket_wf sv cls :
  saver_wf sv -> cls ∈ SAVING_CLASSES_ORDER ->
  sv !! __name__ cls = Some (bucket_of sv cls).
Proof.
  intros Hwf Hin. unfold saver_wf in Hwf. rewrite Forall_forall in Hwf.
  destruct (Hwf _ Hin) as [l Hl]. unfold bucket_of. now rewrite Hl.
Qed.

Lemma get_bucket_Some k l st :
  saving st !! k = Some l -> get_bucket k st = (Ok l, st, []).
Proof. intros H. unfold get_bucket. now rewrite H. Qed.

Lemma get_bucket_None k st :
  saving st !! k = None -> get_bucket k st = (Raise (KeyError k), st, []).
Proof. intros H. unfold get_bucket. now rewrite H. Qed.

Lemma bucket_of_Some sv cls l : sv !! __name__ cls = Some l -> bucket_of sv cls = l.
Proof. intros H. unfold bucket_of. now rewrite H. Qed.

(** The two comprehensions of [save_all] only read the buckets: they raise
    [KeyError] when one is missing and otherwise compute
    [saving_classes_of] and [item_counts_of]. *)
Lemma filterM_buckets (l : list Model) st :
  (Forall (fun cls => is_Some (saving st !! __name__ cls)) l ->
   filterM (fun cls => bucket <- get_bucket (__name__ cls) ;;
                       ret (negb (length bucket =? 0))) l st
   = (Ok (filter (fun cls => negb (length (bucket_of (saving st) cls) =? 0)) l), st, []))
  /\
  (~ Forall (fun cls => is_Some (saving st !! __name__ cls)) l ->
   exists e,
     filterM (fun cls => bucket <- get_bucket (__name__ cls) ;;
                         ret (negb (length bucket =? 0))) l st
     = (Raise e, st, [])).
Proof.
  induction l as [|cls l [IH1 IH2]].
  - split; [done|]. intros H. contradiction H. constructor.
  - cbn [filterM].
    destruct (saving st !! __name__ cls) as [b|] eqn:E.
    + rewrite (bind_pure _ _ (negb (length b =? 0)))
        by (erewrite bind_pure; [reflexivity|now apply get_bucket_Some]).
      split.
      * intros H. apply Forall_cons in H as [_ H].
        erewrite bind_pure; [|apply IH1, H]. unfold ret. do 2 f_equal.
        rewrite filter_cons, (bucket_of_Some _ _ _ E).
        now destruct (length b =? 0).
      * intros H. destruct IH2 as [e He].
        { intros H'. apply H. constructor; [by eexists|done]. }
        exists e. now erewrite bind_raise.
    + split.
      * intros H. apply Forall_cons in H as [[? ?] _]. congruence.
      * intros _. eexists. erewrite bind_raise; [reflexivity|].
        erewrite bind_raise; [reflexivity|]. now apply get_bucket_None.
Qed.

Lemma dictM_buckets (l : list Model) (acc : gmap string nat) st :
  Forall (fun cls => is_Some (saving st !! __name__ cls)) l ->
  dictM (fun cls => bucket <- get_items_to_add cls ;;
                    ret (__name__ cls, length bucket)) l acc st
  = (Ok (foldl (fun acc cls => <[__name__ cls := length (bucket_of (saving st) cls)]> acc)
               acc l), st, []).
Proof.
  revert acc. induction l as [|cls l IH]; intros acc H; [done|].
  apply Forall_cons in H as [[b Hb] H].
  cbn [dictM foldl].
  rewrite (bind_pure _ _ (__name__ cls, length b)).
  - rewrite (IH _ H). now rewrite (bucket_of_Some _ _ _ Hb).
  - erewrite bind_pure; [reflexivity|]. now apply get_bucket_Some.
Qed.

(** *** [_prepare] and [_save] *)

Lemma _prepare_unfold cls st :
  _prepare cls st =
  match saving st !! __name__ cls with
  | None => (Raise (KeyError (__name__ cls)), st, [])
  | Some raw =>
      let '(r, s1) := prepare cls raw (store st) in
      match r with
      | Ok prepared =>
          (Ok (),
           {| store := s1;
              saving := <[__name__ cls := sorted keys_leb (field_keys cls) prepared]>
                          (saving st) |},
           [Prepare cls raw])
      | Raise e => (Raise e, {| store := s1; saving := saving st |}, [Prepare cls raw])
      end
  end.
Proof.
  unfold _prepare. destruct (saving st !! __name__ cls) as [raw|] eqn:E.
  - rewrite (bind_pure _ _ raw) by (now apply get_bucket_Some).
    rewrite bind_unfold. unfold call.
    destruct (prepare cls raw (store st)) as [[prepared|e] s1]; reflexivity.
  - erewrite bind_raise; [reflexivity|]. now apply get_bucket_None.
Qed.

Lemma save_chunk_unfold cls batch st :
  save_chunk cls batch st =
  let '(r, st', t) := _save_batch cls batch st in
  (match r with Ok _ => Ok () | Raise e => Raise e end, st', t).
Proof.
  unfold save_chunk. rewrite bind_unfold.
  destruct (_save_batch cls batch st) as [[[n|e] st'] t]; [|reflexivity].
  simpl. now rewrite app_nil_r.
Qed.

Lemma _save_unfold cls st :
  _save cls st =
  match saving st !! __name__ cls with
  | None => (Raise (KeyError (__name__ cls)), st, [])
  | Some items =>
      for_each (split_every BATCH_SIZE items) (save_chunk cls)
        {| store := store st; saving := <[__name__ cls := []]> (saving st) |}
  end.
Proof.
  unfold _save. destruct (saving st !! __name__ cls) as [items|] eqn:E.
  - rewrite (bind_pure _ _ items) by (now apply get_bucket_Some).
    rewrite bind_unfold. unfold set_bucket.
    now destruct (for_each _ _ _) as [[r st2] t2].
  - erewrite bind_raise; [reflexivity|]. now apply get_bucket_None.
Qed.

Lemma save_chunk_post cls batch st : write_post cls st (save_chunk cls batch st).
Proof.
  rewrite save_chunk_unfold. pose proof (_save_batch_post cls batch st) as H.
  destruct (_save_batch cls batch st) as [[[n|e] st'] t];
    destruct H as (Hs & Hw & Hf); (split; [done|]); (split; [done|]);
    intros i ev e' Hi Hfat; destruct (Hf _ _ _ Hi Hfat) as [[=] Hlen].
  now subst.
Qed.

Lemma write_post_nil {A} cls st (a : A) : write_post cls st (Ok a, st, []).
Proof. split; [done|]. split; [constructor|]. intros i ev e Hi. done. Qed.

Lemma for_each_chunks_post cls chunks st :
  write_post cls st (for_each chunks (save_chunk cls) st).
Proof.
  revert chunks st.
  apply (for_each_ind (save_chunk cls) (fun _ st o => write_post cls st o)).
  - intros st. apply write_post_nil.
  - intros x l st e st1 t1 E. rewrite <- E. apply save_chunk_post.
  - intros x l st st1 t1 r st2 t2 E _ IH.
    eapply write_post_app; [|exact IH]. rewrite <- E. apply save_chunk_post.
Qed.

(** [_save] empties the bucket of its class before anything else, and
    leaves the other buckets alone. *)
Lemma _save_post cls st items :
  saving st !! __name__ cls = Some items ->
  write_post cls {| store := store st; saving := <[__name__ cls := []]> (saving st) |}
    (_save cls st).
Proof.
  intros H. rewrite _save_unfold, H. apply for_each_chunks_post.
Qed.

(** *** The classes and their order *)

Lemma SAVING_CLASSES_ORDER_sorted : in_saving_order SAVING_CLASSES_ORDER.
Proof.
  split.
  - compute_done.
  - apply Forall_forall. done.
Qed.

Lemma __name___inj cls1 cls2 :
  cls1 ∈ SAVING_CLASSES_ORDER -> cls2 ∈ SAVING_CLASSES_ORDER ->
  __name__ cls1 = __name__ cls2 -> cls1 = cls2.
Proof.
  unfold SAVING_CLASSES_ORDER. rewrite !elem_of_cons, !elem_of_nil.
  intros H1 H2 Hn.
  repeat (destruct H1 as [->|H1]); try done;
    repeat (destruct H2 as [->|H2]); try done; discriminate Hn.
Qed.


Lemma in_saving_order_filter (P : Model -> Prop) `{forall cls, Decision (P cls)} l :
  in_saving_order l -> in_saving_order (filter P l).
Proof.
  intros [Hs Hin]. split.
  - induction Hs as [|x l Hs IH Hx]; [constructor|].
    apply Forall_cons in Hin as [_ Hin].
    rewrite filter_cons. destruct (decide (P x)); [|by apply IH].
    constructor; [by apply IH|].
    apply Forall_forall. intros y Hy. apply list_elem_of_filter in Hy as [_ Hy].
    rewrite Forall_forall in Hx. by apply Hx.
  - apply Forall_forall. intros x Hx. apply list_elem_of_filter in Hx as [_ Hx].
    rewrite Forall_forall in Hin. by apply Hin.
Qed.

Lemma saving_classes_in_order sv : in_saving_order (saving_classes_of sv).
Proof. apply in_saving_order_filter, SAVING_CLASSES_ORDER_sorted. Qed.

Lemma in_saving_order_cons cls classes :
  in_saving_order (cls :: classes) ->
  cls ∈ SAVING_CLASSES_ORDER /\
  in_saving_order classes /\
  (forall c, c ∈ classes -> class_index cls < class_index c /\
                            __name__ c <> __name__ cls).
Proof.
  intros [Hs Hin]. apply StronglySorted_cons in Hs as [Hx Hs].
  apply Forall_cons in Hin as [Hc Hin].
  split; [done|]. split; [by split|].
  intros c Hc'. rewrite Forall_forall in Hx, Hin.
  specialize (Hx _ Hc'). split; [done|].
  intros Hn. apply __name___inj in Hn; [subst; lia|by apply Hin|done].
Qed.

Lemma same_phase_sorted (t : list event) n :
  Forall (fun ev => phase ev = n) t -> StronglySorted phase_le t.
Proof.
  induction 1 as [|ev t Hev Ht IH]; constructor; [done|].
  eapply Forall_impl; [exact Ht|]. intros ev' Hev'. cbv beta in Hev'.
  unfold phase_le. lia.
Qed.

Lemma writes_phase ev cls :
  writes ev = Some cls -> phase ev = 2 + length SAVING_CLASSES_ORDER + class_index cls.
Proof. destruct ev; intros [=]; subst; reflexivity. Qed.

Lemma prepares_phase ev cls :
  prepares ev = Some cls -> phase ev = 1 + class_index cls.
Proof. destruct ev; intros [=]; subst; reflexivity. Qed.

(** *** The loops over the classes *)

Lemma _save_single_post cls st :
  let '(r, st1, t1) := _save cls st in
  (forall k, saving st1 !! k = saving st !! k \/ saving st1 !! k = Some []) /\
  (r = Ok () -> saving st1 !! __name__ cls = Some []) /\
  Forall (fun ev => writes ev = Some cls /\ saving st1 !! __name__ cls = Some []) t1 /\
  (forall i ev e, t1 !! i = Some ev -> fatal_of ev = Some e ->
                  r = Raise e /\ S i = length t1).
Proof.
  destruct (saving st !! __name__ cls) as [items|] eqn:E.
  - pose proof (_save_post cls st items E) as H.
    destruct (_save cls st) as [[r st1] t1]. destruct H as (Hs & Hw & Hf).
    simpl in Hs.
    assert (saving st1 !! __name__ cls = Some []) as Hcls
      by (rewrite Hs; apply lookup_insert_eq).
    split; [|split; [done|split; [|done]]].
    + intros k. destruct (decide (k = __name__ cls)) as [-> | Hne]; [by right|left].
      rewrite Hs. by apply lookup_insert_ne.
    + eapply Forall_impl; [exact Hw|]. by intros ev Hev.
  - rewrite _save_unfold, E. split; [by left|]. split; [done|].
    split; [constructor|]. intros i ev e Hi. done.
Qed.

Lemma for_each_save_post classes st :
  in_saving_order classes -> save_loop_post classes st (for_each classes _save st).
Proof.
  revert classes st.
  apply (for_each_ind _save
           (fun l st o => in_saving_order l -> save_loop_post l st o)).
  - intros st _. split; [by left|]. split; [by intros _ cls ?%elem_of_nil|].
    split; [constructor|]. split; [constructor|]. intros i ev e Hi. done.
  - intros x l st e st1 t1 E Hord.
    pose proof (_save_single_post x st) as H. rewrite E in H.
    destruct H as (Hk & _ & Hw & Hf).
    split; [done|]. split; [done|]. split; [|split; [|done]].
    + eapply Forall_impl; [exact Hw|]. intros ev [Hev Hb]. exists x.
      split; [apply list_elem_of_here|done].
    + apply (same_phase_sorted _ (2 + length SAVING_CLASSES_ORDER + class_index x)).
      eapply Forall_impl; [exact Hw|]. intros ev [Hev _]. by apply writes_phase.
  - intros x l st st1 t1 r st2 t2 E _ IH Hord.
    apply in_saving_order_cons in Hord as (Hx & Hord & Hlater).
    specialize (IH Hord). destruct IH as (Hk2 & Hok2 & Hw2 & Hs2 & Hf2).
    pose proof (_save_single_post x st) as H. rewrite E in H.
    destruct H as (Hk1 & Hok1 & Hw1 & Hf1).
    assert (saving st2 !! __name__ x = Some []) as Hxempty.
    { destruct (Hk2 (__name__ x)) as [-> | ->]; [by apply Hok1|done]. }
    split; [|split; [|split; [|split]]].
    + intros k. destruct (Hk2 k) as [-> | ->]; [apply Hk1|by right].
    + intros Hr cls [-> | Hin]%elem_of_cons; [done|by apply Hok2].
    + apply Forall_app. split.
      * eapply Forall_impl; [exact Hw1|]. intros ev [Hev _]. exists x.
        split; [apply list_elem_of_here|done].
      * eapply Forall_impl; [exact Hw2|]. intros ev (cls & Hin & Hev & Hb).
        exists cls. split; [by apply list_elem_of_further|done].
    + apply StronglySorted_app_2; [| |done].
      * intros ev1 ev2 H1 H2. rewrite Forall_forall in Hw1, Hw2.
        destruct (Hw1 _ H1) as [Hev1 _]. destruct (Hw2 _ H2) as (cls & Hin & Hev2 & _).
        unfold phase_le. rewrite (writes_phase _ _ Hev1), (writes_phase _ _ Hev2).
        destruct (Hlater _ Hin). lia.
      * apply (same_phase_sorted _ (2 + length SAVING_CLASSES_ORDER + class_index x)).
        eapply Forall_impl; [exact Hw1|]. intros ev [Hev _]. by apply writes_phase.
    + intros i ev e Hi Hfat. rewrite length_app.
      apply lookup_app_Some in Hi as [Hi|[Hge Hi]].
      * destruct (Hf1 _ _ _ Hi Hfat) as [? _]. discriminate.
      * destruct (Hf2 _ _ _ Hi Hfat) as [-> Hlen]. split; [done|lia].
Qed.

Lemma _prepare_single_post cls st :
  let '(r, st1, t1) := _prepare cls st in
  (forall k, k <> __name__ cls -> saving st1 !! k = saving st !! k) /\
  (forall k, is_Some (saving st !! k) -> is_Some (saving st1 !! k)) /\
  Forall (fun ev => prepares ev = Some cls) t1.
Proof.
  rewrite _prepare_unfold. destruct (saving st !! __name__ cls) as [raw|] eqn:E.
  - destruct (prepare cls raw (store st)) as [[prepared|e] s1]; simpl.
    + split; [|split; [|by repeat constructor]].
      * intros k Hk. by apply lookup_insert_ne.
      * intros k Hk. destruct (decide (k = __name__ cls)) as [-> | Hne].
        -- rewrite lookup_insert_eq. by eexists.
        -- by rewrite lookup_insert_ne.
    + split; [done|]. split; [done|]. by repeat constructor.
  - split; [done|]. split; [done|]. constructor.
Qed.

Lemma for_each_prepare_post classes st :
  in_saving_order classes ->
  prepare_loop_post classes st (for_each classes _prepare st).
Proof.
  revert classes st.
  apply (for_each_ind _prepare
           (fun l st o => in_saving_order l -> prepare_loop_post l st o)).
  - intros st _. split; [done|]. split; [done|]. split; constructor.
  - intros x l st e st1 t1 E Hord.
    pose proof (_prepare_single_post x st) as H. rewrite E in H.
    destruct H as (Hk & Hsome & Hp).
    split; [|split; [done|split]].
    + intros k Hk'. apply Hk. intros ->. apply Hk'. rewrite fmap_cons. apply list_elem_of_here.
    + eapply Forall_impl; [exact Hp|]. intros ev Hev. exists x.
      split; [apply list_elem_of_here|done].
    + apply (same_phase_sorted _ (1 + class_index x)).
      eapply Forall_impl; [exact Hp|]. intros ev Hev. by apply prepares_phase.
  - intros x l st st1 t1 r st2 t2 E _ IH Hord.
    apply in_saving_order_cons in Hord as (Hx & Hord & Hlater).
    specialize (IH Hord). destruct IH as (Hk2 & Hsome2 & Hp2 & Hs2).
    pose proof (_prepare_single_post x st) as H. rewrite E in H.
    destruct H as (Hk1 & Hsome1 & Hp1).
    split; [|split; [|split]].
    + intros k Hk. rewrite fmap_cons, not_elem_of_cons in Hk. destruct Hk as [Hne Hk].
      rewrite Hk2 by done. by apply Hk1.
    + intros k Hk. by apply Hsome2, Hsome1.
    + apply Forall_app. split.
      * eapply Forall_impl; [exact Hp1|]. intros ev Hev. exists x.
        split; [apply list_elem_of_here|done].
      * eapply Forall_impl; [exact Hp2|]. intros ev (cls & Hin & Hev).
        exists cls. split; [by apply list_elem_of_further|done].
    + apply StronglySorted_app_2; [| |done].
      * intros ev1 ev2 H1 H2. rewrite Forall_forall in Hp1, Hp2.
        specialize (Hp1 _ H1). destruct (Hp2 _ H2) as (cls & Hin & Hev2).
        unfold phase_le. rewrite (prepares_phase _ _ Hp1), (prepares_phase _ _ Hev2).
        destruct (Hlater _ Hin). lia.
      * apply (same_phase_sorted _ (1 + class_index x)).
        eapply Forall_impl; [exact Hp1|]. intros ev Hev. by apply prepares_phase.
Qed.

(** *** Saving without conflicts *)

Lemma BATCH_SIZE_pos : 0 < BATCH_SIZE.
Proof. unfold BATCH_SIZE. lia. Qed.





Lemma saving_classes_sub sv cls :
  cls ∈ saving_classes_of sv -> cls ∈ SAVING_CLASSES_ORDER.
Proof. unfold saving_classes_of. rewrite list_elem_of_filter. tauto. Qed.

(** [save_all] after its two comprehensions. *)
Lemma save_all_unfold before_save st :
  saver_wf (saving st) ->
  let classes := saving_classes_of (saving st) in
  let counts := item_counts_of (saving st) classes in
  save_all before_save st =
    (call (reserve classes counts) (fun _ => Reserve classes counts) ;;
     for_each classes _prepare ;;
     run_hook before_save ;;
     for_each classes _save) st.
Proof.
  intros Hwf classes counts. unfold save_all.
  erewrite bind_pure; [|apply filterM_buckets, Hwf].
  erewrite bind_pure; [reflexivity|].
  apply dictM_buckets. apply Forall_forall. intros cls Hin.
  unfold saver_wf in Hwf. rewrite Forall_forall in Hwf.
  apply Hwf. now apply (saving_classes_sub (saving st)).
Qed.

Lemma save_all_not_wf before_save st :
  ~ saver_wf (saving st) -> exists e, save_all before_save st = (Raise e, st, []).
Proof.
  intros Hwf. destruct (proj2 (filterM_buckets SAVING_CLASSES_ORDER st) Hwf) as [e He].
  exists e. unfold save_all. now erewrite bind_raise.
Qed.

Lemma run_hook_unfold before_save st :
  run_hook before_save st =
  match before_save with
  | Some f =>
      let '(r, s1) := f (store st) in
      (r, {| store := s1; saving := saving st |}, [BeforeSave])
  | None => (Ok (), st, [])
  end.
Proof. destruct before_save; reflexivity. Qed.

Lemma run_hook_post before_save st :
  let '(r, st', t) := run_hook before_save st in
  saving st' = saving st /\ Forall (fun ev => ev = BeforeSave) t.
Proof.
  rewrite run_hook_unfold. destruct before_save as [f|]; [|by split].
  destruct (f (store st)) as [r s1]. split; [done|]. by repeat constructor.
Qed.

(** [save_all], phase by phase. *)
Lemma save_all_run before_save st :
  saver_wf (saving st) ->
  let classes := saving_classes_of (saving st) in
  let counts := item_counts_of (saving st) classes in
  save_all before_save st =
  let '(r0, s1) := reserve classes counts (store st) in
  let st1 := {| store := s1; saving := saving st |} in
  match r0 with
  | Raise e => (Raise e, st1, [Reserve classes counts])
  | Ok _ =>
      match for_each classes _prepare st1 with
      | (Raise e, st2, t2) => (Raise e, st2, Reserve classes counts :: t2)
      | (Ok _, st2, t2) =>
          match run_hook before_save st2 with
          | (Raise e, st3, t3) => (Raise e, st3, Reserve classes counts :: t2 ++ t3)
          | (Ok _, st3, t3) =>
              let '(r, st4, t4) := for_each classes _save st3 in
              (r, st4, Reserve classes counts :: t2 ++ t3 ++ t4)
          end
      end
  end.
Proof.
  intros Hwf classes counts. rewrite save_all_unfold by done. fold classes counts.
  rewrite bind_unfold. unfold call.
  destruct (reserve classes counts (store st)) as [[[]|e] s1]; [|reflexivity].
  rewrite bind_unfold.
  destruct (for_each classes _prepare _) as [[[[]|e] st2] t2]; [|reflexivity].
  rewrite bind_unfold.
  destruct (run_hook before_save st2) as [[[[]|e] st3] t3]; [|reflexivity].
  destruct (for_each classes _save st3) as [[r st4] t4]. reflexivity.
Qed.



(** An unresolved re-merge ends [save_all] with its error. *)
Lemma save_all_fatal before_save st i ev e :
  trace_of (save_all before_save st) !! i = Some ev -> fatal_of ev = Some e ->
  (save_all before_save st).1.1 = Raise e /\
  S i = length (trace_of (save_all before_save st)).
Proof.
  destruct (decide (saver_wf (saving st))) as [Hwf|Hwf].
  2:{ destruct (save_all_not_wf before_save st Hwf) as [e' ->]. done. }
  rewrite save_all_run by done.
  set (classes := saving_classes_of (saving st)).
  set (counts := item_counts_of (saving st) classes).
  pose proof (saving_classes_in_order (saving st)) as Hord. fold classes in Hord.
  assert (forall (pre t : list event) k (ev' : event),
            Forall (fun ev => fatal_of ev = None) pre ->
            (pre ++ t) !! k = Some ev' -> fatal_of ev' = Some e ->
            exists k', t !! k' = Some ev' /\ k = length pre + k') as Hskip.
  { intros pre t k ev' Hpre Hk Hfat.
    apply lookup_app_Some in Hk as [Hk|[Hge Hk]].
    - rewrite Forall_forall in Hpre.
      rewrite (Hpre ev') in Hfat; [done|]. apply list_elem_of_lookup. by exists k.
    - exists (k - length pre). split; [done|lia]. }
  assert (forall (pre : list event) k (ev' : event),
            Forall (fun ev => fatal_of ev = None) pre ->
            pre !! k = Some ev' -> fatal_of ev' = Some e -> False) as Hnone.
  { intros pre k ev' Hpre Hk Hfat.
    destruct (Hskip pre [] k ev' Hpre) as (k' & Hk' & _); [by rewrite app_nil_r|done|done]. }
  destruct (reserve classes counts (store st)) as [[[]|e0] s1]; cbv zeta;
    [|intros Hi Hfat; exfalso; eapply Hnone; [|exact Hi|exact Hfat]; by repeat constructor].
  pose proof (for_each_prepare_post classes
                {| store := s1; saving := saving st |} Hord) as Hprep.
  destruct (for_each classes _prepare _) as [[rp st2] t2].
  destruct Hprep as (_ & _ & Hp & _).
  assert (Forall (fun ev => fatal_of ev = None) t2) as Hp'.
  { eapply Forall_impl; [exact Hp|]. intros ev' (cls & _ & Hev). by destruct ev'. }
  destruct rp as [[]|e0];
    [|intros Hi Hfat; exfalso; eapply Hnone; [|exact Hi|exact Hfat]; by constructor].
  pose proof (run_hook_post before_save st2) as Hhook.
  destruct (run_hook before_save st2) as [[rh st3] t3]. destruct Hhook as [_ Hh].
  assert (Forall (fun ev => fatal_of ev = None) (Reserve classes counts :: t2 ++ t3)) as Hpre.
  { constructor; [done|]. apply Forall_app. split; [done|].
    eapply Forall_impl; [exact Hh|]. by intros ev' ->. }
  destruct rh as [[]|e0];
    [|intros Hi Hfat; exfalso; eapply Hnone; [|exact Hi|exact Hfat]; done].
  pose proof (for_each_save_post classes st3 Hord) as Hsave.
  destruct (for_each classes _save st3) as [[r st4] t4].
  destruct Hsave as (_ & _ & _ & _ & Hf).
  unfold trace_of. simpl. intros Hi Hfat.
  rewrite app_assoc in Hi.
  change (Reserve classes counts :: (t2 ++ t3) ++ t4)
    with ((Reserve classes counts :: t2 ++ t3) ++ t4) in Hi.
  destruct (Hskip (Reserve classes counts :: t2 ++ t3) t4 i ev) as (k' & Hk' & ->);
    [done|done|done|].
  destruct (Hf _ _ _ Hk' Hfat) as [-> Hlen]. split; [done|].
  rewrite app_assoc, length_app. simpl in *. lia.
Qed.




(** A new saver has every bucket, empty. *)
Lemma __init___empty : all_buckets_empty __init__.
Proof.
  intros cls Hin. unfold SAVING_CLASSES_ORDER in Hin.
  rewrite !elem_of_cons, elem_of_nil in Hin.
  repeat (destruct Hin as [-> | Hin]; [vm_compute; reflexivity|]). destruct Hin.
Qed.

Lemma all_buckets_empty_wf sv : all_buckets_empty sv -> saver_wf sv.
Proof.
  intros Hempty. apply Forall_forall. intros cls Hin.
  rewrite (Hempty cls Hin). by eexists.
Qed.




(** C5: when the insert of a one-record batch raises a uniqueness conflict,
    [_save_batch] calls the type's [merge] on that record.  If [merge]
    leaves nothing unresolved the batch is done and the round-trip count, 1,
    is returned; if it still returns the record, a [ValueError] naming the
    type and carrying the record is raised.  Such an error ends [save_all]:
    the unresolved re-merge is the last call made and its error is the
    outcome of [save_all]. *)
Theorem _save_batch_duplicate cls duplicate st s1 :
  bulk_insert_mappings cls (map (to_dict cls) [duplicate]) (store st)
    = (Raise IntegrityError, s1) ->
  (let '(u, s2) := merge cls [duplicate] s1 in
   _save_batch cls [duplicate] st =
     (match u with
      | Ok [] => Ok 1
      | Ok (_ :: _) => Raise (ValueError (__name__ cls) duplicate)
      | Raise e => Raise e
      end,
      {| store := s2; saving := saving st |},
      [BulkInsert cls [duplicate] (Raise IntegrityError); Merge cls [duplicate] u])) /\
  (forall before_save st0 i ev e,
     trace_of (save_all before_save st0) !! i = Some ev ->
     fatal_of ev = Some e ->
     (save_all before_save st0).1.1 = Raise e /\
     S i = length (trace_of (save_all before_save st0))).
Proof.
  intros Hins. split; [|apply save_all_fatal].
  rewrite _save_batch_unfold, Hins. cbv zeta. rewrite remerge_unfold. simpl.
  by destruct (merge cls [duplicate] s1) as [u s2].
Qed.


(** C9 (as amended): after [_prepare] the bucket of the type holds the output
    of the type's [prepare], sorted by the list of the field keys of each
    record (a stable sort: a permutation of that output, in order, the
    records of one key list in their original order).  Any two records whose
    field maps list the same keys in the same order are contiguous in it;
    records with the same set of keys listed in another order need not be. *)
Theorem _prepare_sorted cls st raw prepared s1 :
  saving st !! __name__ cls = Some raw ->
  prepare cls raw (store st) = (Ok prepared, s1) ->
  exists items,
    _prepare cls st =
      (Ok (), {| store := s1; saving := <[__name__ cls := items]> (saving st) |},
       [Prepare cls raw]) /\
    items = sorted keys_leb (field_keys cls) prepared /\
    items ≡ₚ prepared /\
    StronglySorted (key_le keys_leb (field_keys cls)) items /\
    (forall k, filter (fun r => field_keys cls r = k) items
               = filter (fun r => field_keys cls r = k) prepared) /\
    grouped_by_keys cls items.
Proof.
  intros Hraw Hprep. eexists. split; [|split; [reflexivity|]].
  - by rewrite _prepare_unfold, Hraw, Hprep.
  - assert (StronglySorted (key_le keys_leb (field_keys cls))
              (sorted keys_leb (field_keys cls) prepared)) as Hs
      by (apply sorted_sorted; [apply keys_leb_total|apply keys_leb_trans]).
    split; [apply sorted_perm|]. split; [done|]. split.
    + intros k. apply sorted_stable, keys_leb_total.
    + intros i m j a b c Hij Hi Hm Hj Hac.
      eapply (sorted_contiguous keys_leb (field_keys cls));
        [apply keys_leb_total|apply keys_leb_antisym|exact Hs|exact Hij|done..].
Qed.

(** The buckets of [__init__] stay: [add] and [add_all] keep every key. *)
Lemma saver_wf_insert sv k (l : list Item) : saver_wf sv -> saver_wf (<[k := l]> sv).
Proof.
  unfold saver_wf. intros Hwf. eapply Forall_impl; [exact Hwf|]. intros cls Hcls.
  destruct (decide (k = __name__ cls)) as [-> | Hne].
  - rewrite lookup_insert_eq. by eexists.
  - by rewrite lookup_insert_ne.
Qed.

Lemma add_all_wf items st :
  saver_wf (saving st) -> saver_wf (saving (add_all items st).1.2).
Proof.
  intros Hwf. destruct items as [|item0 rest]; [done|]. unfold add_all.
  destruct (bool_decide (model item0 ∈ SAVING_CLASSES_ORDER)); [|done].
  destruct (saving st !! __name__ (model item0)) as [bucket|] eqn:E.
  - rewrite (bind_pure _ _ bucket) by (by apply get_bucket_Some).
    by apply saver_wf_insert.
  - by erewrite bind_raise; [|by apply get_bucket_None].
Qed.

Lemma add_wf item st :
  saver_wf (saving st) -> saver_wf (saving (add item st).1.2).
Proof.
  intros Hwf. unfold add.
  destruct (bool_decide (model item ∈ SAVING_CLASSES_ORDER)); [|done].
  destruct (saving st !! __name__ (model item)) as [bucket|] eqn:E.
  - rewrite (bind_pure _ _ bucket) by (by apply get_bucket_Some).
    by apply saver_wf_insert.
  - by erewrite bind_raise; [|by apply get_bucket_None].
Qed.

(** C10: [add_all] does nothing for an empty list.  Otherwise it checks the
    model of the first item only: when that model is not in
    [SAVING_CLASSES_ORDER] the assertion fails and nothing is stored; when it
    is, every item of the list, whatever its own model, is appended to the
    bucket named after the first item's model, and no other bucket changes. *)
Theorem add_all_first_model st :
  add_all [] st = (Ok (), st, []) /\
  (forall item0 rest,
     model item0 ∉ SAVING_CLASSES_ORDER ->
     add_all (item0 :: rest) st
     = (Raise (AssertionError (__name__ (model item0))), st, [])) /\
  (forall item0 rest bucket,
     model item0 ∈ SAVING_CLASSES_ORDER ->
     saving st !! __name__ (model item0) = Some bucket ->
     add_all (item0 :: rest) st
     = (Ok (),
        {| store := store st;
           saving := <[__name__ (model item0) := bucket ++ item0 :: rest]> (saving st) |},
        [])).
Proof.
  split; [done|]. split.
  - intros item0 rest Hnot. unfold add_all. by rewrite bool_decide_eq_false_2.
  - intros item0 rest bucket Hin Hb. unfold add_all.
    rewrite bool_decide_eq_true_2 by done.
    rewrite (bind_pure _ _ bucket) by (by apply get_bucket_Some). done.
Qed.

End SaveAll.

(** ** Runs on the key store *)

Section Runs.
Import KeyStore.

#[local] Abbreviation W1 := (world true).
#[local] Abbreviation W0 := (world false).





(** When [save_all] returns, the buckets are empty. *)
Example save_all_success_drains :
  all_buckets_empty
    (saving (save_all (W := W1) None (pending true [] [mk SharedText 0; mk Issue 1])).1.2).
Proof.
  intros cls Hin. unfold SAVING_CLASSES_ORDER in Hin.
  rewrite !elem_of_cons, elem_of_nil in Hin.
  repeat (destruct Hin as [-> | Hin]; [vm_compute; reflexivity|]). destruct Hin.
Qed.

(** C3, counterexample: the failed batch of eight is not cut into two
    sub-batches of four; [sub_batch_size] is [ceil (8 / 4) = 2] and there are
    four sub-batches of two. *)
Lemma eight_records_not_split_in_two :
  (sub_batch_size (W := W1) batch8 = 2 /\
   length <$> split_every (sub_batch_size (W := W1) batch8) batch8 = [2; 2; 2; 2]) /\
  ~ (exists c1 c2,
       split_every (sub_batch_size (W := W1) batch8) batch8 = [c1; c2] /\
       length c1 = 4 /\ length c2 = 4).
Proof.
  split; [split; vm_compute; reflexivity|].
  intros (c1 & c2 & H & _). vm_compute in H. discriminate H.
Qed.

(** C3 (as amended): a batch of 8 records of which exactly one, the one of
    key [d], is already committed.  The insert of the 8 conflicts; the batch
    is cut into 4 sub-batches of 2; the sub-batches before the duplicate's
    commit, the duplicate's conflicts and is cut into 2 sub-batches of 1, of
    which the duplicate's conflicts again and is resolved by [merge]; the
    remaining sub-batches of 2 commit.  The round trips returned are
    1 + 4 + 2 = 7. *)
Theorem _save_batch_eight_one_duplicate (d : nat) :
  d < 8 ->
  let '(r, st', t) :=
    _save_batch (W := W1) SharedText batch8 (fresh true [(SharedText, d)]) in
  r = Ok 7 /\
  length <$> split_every (sub_batch_size (W := W1) batch8) batch8 = [2; 2; 2; 2] /\
  attempt_sizes t = 8 :: replicate (d / 2) 2 ++ [2; 1; 1] ++ replicate (3 - d / 2) 2 /\
  conflicts t = [batch8; mk SharedText <$> seq (2 * (d / 2)) 2; [mk SharedText d]] /\
  remerges t = [([mk SharedText d], Ok [])] /\
  length (attempts t) = 7.
Proof.
  intros Hd.
  do 8 (destruct d as [|d]; [vm_compute; repeat split; reflexivity|]). lia.
Qed.

(** The scenario of C3 with the duplicate in fourth place. *)
Lemma _save_batch_eight_one_duplicate_witness :
  3 < 8 /\
  (_save_batch (W := W1) SharedText batch8 (fresh true [(SharedText, 3)])).1.1 = Ok 7.
Proof.
  split; [lia|].
  pose proof (_save_batch_eight_one_duplicate 3 ltac:(lia)) as H.
  destruct (_save_batch _ _ _) as [[r st'] t]. exact (proj1 H).
Defined.

(** C8 on the batch of eight: [log4_up 8 = 2], and three nested calls are
    enough. *)
Lemma _save_batch_terminates_witness :
  0 < length batch8 /\
  _save_batch_rec (W := W1) 3 SharedText batch8 (fresh true [(SharedText, 3)])
  = Some (_save_batch (W := W1) SharedText batch8 (fresh true [(SharedText, 3)])).
Proof.
  split; [vm_compute; lia|].
  apply (_save_batch_terminates (W := W1) SharedText batch8
           (fresh true [(SharedText, 3)]));
    vm_compute; lia.
Defined.

(** C4 on the batch of eight, whose insert conflicts with the committed
    key 3. *)
Lemma _save_batch_split_witness :
  (1 < length batch8 /\
   bulk_insert_mappings (World := W1) SharedText (map (to_dict (World := W1) SharedText) batch8)
     (store (fresh true [(SharedText, 3)]))
   = (Raise IntegrityError, [(SharedText, 3)])) /\
  sub_batch_size (W := W1) batch8 = ceil_div (length batch8) 4.
Proof.
  split; [split; [vm_compute; lia|vm_compute; reflexivity]|].
  apply (_save_batch_split (W := W1) SharedText batch8
           (fresh true [(SharedText, 3)]) [(SharedText, 3)]).
  - vm_compute. lia.
  - vm_compute. reflexivity.
Defined.

(** The sum of C4 on the batch of eight: 1 for the failed attempt, then
    1, 3, 1 and 1 round trips for the four sub-batches. *)
Example _save_batch_split_eight :
  (sum_round_trips (W := W1) (_save_batch SharedText)
     (split_every 2 batch8) (fresh true [(SharedText, 3)])).1.1 = Ok 6.
Proof. vm_compute. reflexivity. Qed.

(** C5 with a merge that does not resolve the record: the error names the
    type and carries the record. *)
Lemma _save_batch_duplicate_witness :
  bulk_insert_mappings (World := W0) SharedText
    (map (to_dict (World := W0) SharedText) [mk SharedText 3])
    (store (fresh false [(SharedText, 3)]))
  = (Raise IntegrityError, [(SharedText, 3)]) /\
  _save_batch (W := W0) SharedText [mk SharedText 3] (fresh false [(SharedText, 3)])
  = (Raise (ValueError "SharedText" (mk SharedText 3)),
     fresh false [(SharedText, 3)],
     [ @BulkInsert W0 SharedText [mk SharedText 3] (Raise IntegrityError);
       @Merge W0 SharedText [mk SharedText 3] (Ok [mk SharedText 3]) ]).
Proof.
  split; [vm_compute; reflexivity|].
  apply (proj1 (_save_batch_duplicate (W := W0) SharedText (mk SharedText 3)
                  (fresh false [(SharedText, 3)]) [(SharedText, 3)]
                  ltac:(vm_compute; reflexivity))).
Defined.

(** With a merge that resolves the record, the conflict costs one round trip
    and no error. *)
Example _save_batch_duplicate_resolved :
  (_save_batch (W := W1) SharedText [mk SharedText 3] (fresh true [(SharedText, 3)])).1.1
  = Ok 1.
Proof. vm_compute. reflexivity. Qed.




(** C9, counterexample: three prepared records with the key lists
    [b, a], [a, c] and [a, b].  Sorted by key list they come out as
    [a, b], [a, c], [b, a]: the two records with the key set {a, b} are
    separated by the record with the key set {a, c}. *)
Lemma same_key_set_not_contiguous :
  let raw := [mk_cols SharedText 0 ["b"; "a"]; mk_cols SharedText 1 ["a"; "c"];
              mk_cols SharedText 2 ["a"; "b"]] in
  let items := [mk_cols SharedText 2 ["a"; "b"]; mk_cols SharedText 1 ["a"; "c"];
                mk_cols SharedText 0 ["b"; "a"]] in
  saving (_prepare (W := W1) SharedText (pending true [] raw)).1.2 !! "SharedText"
  = Some items /\
  ~ grouped_by_key_set (W := W1) SharedText items.
Proof.
  cbv zeta. split; [vm_compute; reflexivity|].
  intros H.
  specialize (H 0 1 2 _ _ _ ltac:(lia) eq_refl eq_refl eq_refl).
  assert ("c" ∈ field_keys (W := W1) SharedText (mk_cols SharedText 1 ["a"; "c"])) as Hc
    by (change ("c" ∈ ["a"; "c"]); apply list_elem_of_further, list_elem_of_here).
  apply H in Hc.
  - change ("c" ∈ ["a"; "b"]) in Hc. rewrite !elem_of_cons, elem_of_nil in Hc.
    destruct Hc as [Hc|[Hc|[]]]; discriminate Hc.
  - intros k. change (k ∈ ["a"; "b"] <-> k ∈ ["b"; "a"]).
    rewrite !elem_of_cons, !elem_of_nil. tauto.
Qed.

(** C9 on the same three records: equal key lists are contiguous. *)
Lemma _prepare_sorted_witness :
  let raw := [mk_cols SharedText 0 ["b"; "a"]; mk_cols SharedText 1 ["a"; "c"];
              mk_cols SharedText 2 ["a"; "b"]] in
  (saving (pending true [] raw) !! "SharedText" = Some raw /\
   prepare (World := W1) SharedText raw (store (pending true [] raw)) = (Ok raw, [])) /\
  exists items,
    saving (_prepare (W := W1) SharedText (pending true [] raw)).1.2 !! "SharedText"
    = Some items /\
    grouped_by_keys (W := W1) SharedText items.
Proof.
  cbv zeta. split; [split; vm_compute; reflexivity|].
  destruct (_prepare_sorted (W := W1) SharedText
              (pending true []
                 [mk_cols SharedText 0 ["b"; "a"]; mk_cols SharedText 1 ["a"; "c"];
                  mk_cols SharedText 2 ["a"; "b"]])
              [mk_cols SharedText 0 ["b"; "a"]; mk_cols SharedText 1 ["a"; "c"];
               mk_cols SharedText 2 ["a"; "b"]]
              [mk_cols SharedText 0 ["b"; "a"]; mk_cols SharedText 1 ["a"; "c"];
               mk_cols SharedText 2 ["a"; "b"]]
              []
              ltac:(vm_compute; reflexivity) ltac:(vm_compute; reflexivity))
    as (items & Hrun & _ & _ & _ & _ & Hgrouped).
  exists items. split; [|exact Hgrouped].
  rewrite Hrun. simpl. apply lookup_insert_eq.
Defined.

(** [add_all] with a first item of [SharedText]: the [Issue] record and the
    record of a model that is not saved in bulk both land in the bucket of
    [SharedText], and the bucket of [Issue] stays empty. *)
Example add_all_misroutes :
  let o := add_all (W := W1)
             [mk SharedText 0; mk Issue 1; mk (OtherModel "Run") 2] (fresh true []) in
  o.1.1 = Ok () /\
  saving o.1.2 !! "SharedText"
  = Some [mk SharedText 0; mk Issue 1; mk (OtherModel "Run") 2] /\
  saving o.1.2 !! "Issue" = Some [].
Proof. repeat split; vm_compute; reflexivity. Qed.

(** A list is refused when its first item is of a model outside
    [SAVING_CLASSES_ORDER]. *)
Example add_all_checks_first_only :
  (add_all (W := W1) [mk (OtherModel "Run") 2; mk SharedText 0] (fresh true [])).1.1
  = Raise (AssertionError "Run").
Proof. vm_compute. reflexivity. Qed.

End Runs.

(** ** Filling the buffers: [add], [add_all], [get_items_to_add] *)

Section Buffers.
Context {W : World}.
Implicit Types (cls : Model) (st : state) (sv : gmap string (list Item)).

Lemma bucket_of_insert sv cls cls' (l : list Item) :
  cls ∈ SAVING_CLASSES_ORDER -> cls' ∈ SAVING_CLASSES_ORDER ->
  bucket_of (<[__name__ cls := l]> sv) cls'
  = if decide (cls' = cls) then l else bucket_of sv cls'.
Proof.
  intros Hc Hc'. unfold bucket_of. destruct (decide (cls' = cls)) as [-> | Hne].
  - by rewrite lookup_insert_eq.
  - rewrite lookup_insert_ne; [done|]. intros Hn. apply Hne.
    by apply __name___inj.
Qed.

Lemma add_run item st :
  saver_wf (saving st) -> model item ∈ SAVING_CLASSES_ORDER ->
  add item st =
  (Ok (),
   {| store := store st;
      saving := <[__name__ (model item) := bucket_of (saving st) (model item) ++ [item]]>
                  (saving st) |},
   []).
Proof.
  intros Hwf Hin. unfold add. rewrite bool_decide_eq_true_2 by done.
  rewrite (bind_pure _ _ (bucket_of (saving st) (model item)))
    by (apply get_bucket_Some; by apply get_bucket_wf).
  reflexivity.
Qed.

Lemma for_each_add_run items st :
  saver_wf (saving st) -> Forall (fun it => model it ∈ SAVING_CLASSES_ORDER) items ->
  exists sv',
    for_each items add st = (Ok (), {| store := store st; saving := sv' |}, []) /\
    saver_wf sv' /\
    (forall cls, cls ∈ SAVING_CLASSES_ORDER ->
       bucket_of sv' cls
       = bucket_of (saving st) cls ++ filter (fun it => model it = cls) items) /\
    (forall k, Forall (fun it => k <> __name__ (model it)) items ->
       sv' !! k = saving st !! k).
Proof.
  intros Hwf Hall. revert st Hwf.
  induction Hall as [|item items Hin Hall IH]; intros st Hwf.
  - exists (saving st). split; [by destruct st|]. split; [done|]. split; [|done].
    intros cls _. by rewrite filter_nil, app_nil_r.
  - cbn [for_each]. rewrite bind_unfold, (add_run _ _ Hwf Hin).
    set (st1 := {| store := store st; saving := _ |}).
    destruct (IH st1) as (sv' & Hrun & Hwf' & Hb & Hk); [by apply saver_wf_insert|].
    exists sv'. rewrite Hrun. split; [done|]. split; [done|]. split.
    + intros cls Hcls. rewrite (Hb cls Hcls). simpl.
      rewrite bucket_of_insert, filter_cons by done.
      destruct (decide (cls = model item)) as [-> | Hne].
      * rewrite decide_True by done. by rewrite <- app_assoc.
      * by rewrite decide_False by congruence.
    + intros k [Hne Hrest]%Forall_cons. rewrite (Hk k Hrest). simpl.
      by rewrite lookup_insert_ne.
Qed.

(** X1: a sequence of [add] calls with items whose models are in
    [SAVING_CLASSES_ORDER], made on a saver that has its buckets, never
    fails, calls nothing and leaves the store alone; afterwards
    [get_items_to_add] returns, for each class, what the bucket held before
    followed by the added items of that model, in the order they were added.
    Each item is in the bucket of its model and in no other. *)
Theorem adds_route_by_model items st :
  saver_wf (saving st) -> Forall (fun it => model it ∈ SAVING_CLASSES_ORDER) items ->
  (for_each items add st).1.1 = Ok () /\
  trace_of (for_each items add st) = [] /\
  store (for_each items add st).1.2 = store st /\
  forall cls, cls ∈ SAVING_CLASSES_ORDER ->
    (get_items_to_add cls (for_each items add st).1.2).1.1
    = Ok (bucket_of (saving st) cls ++ filter (fun it => model it = cls) items).
Proof.
  intros Hwf Hall.
  destruct (for_each_add_run items st Hwf Hall) as (sv' & -> & Hwf' & Hb & _).
  split; [done|]. split; [done|]. split; [done|].
  intros cls Hcls. unfold get_items_to_add. simpl.
  rewrite (get_bucket_Some _ (bucket_of sv' cls)) by (by apply get_bucket_wf).
  simpl. by rewrite (Hb cls Hcls).
Qed.

(** X2: [add_all] of a list whose items all have the model of the first,
    a model of [SAVING_CLASSES_ORDER], does what [add] of each item in turn
    does: the same outcome and the same buffers. *)
Theorem add_all_as_adds item0 rest st :
  saver_wf (saving st) ->
  model item0 ∈ SAVING_CLASSES_ORDER ->
  Forall (fun it => model it = model item0) rest ->
  add_all (item0 :: rest) st = for_each (item0 :: rest) add st.
Proof.
  intros Hwf Hin Hrest.
  assert (Forall (fun it => model it ∈ SAVING_CLASSES_ORDER) (item0 :: rest)) as Hall.
  { constructor; [done|]. eapply Forall_impl; [exact Hrest|]. by intros it ->. }
  destruct (for_each_add_run _ st Hwf Hall) as (sv' & -> & Hwf' & Hb & Hk).
  unfold add_all. rewrite bool_decide_eq_true_2 by done.
  rewrite (bind_pure _ _ (bucket_of (saving st) (model item0)))
    by (apply get_bucket_Some; by apply get_bucket_wf).
  unfold set_bucket. do 2 f_equal. f_equal. apply map_eq. intros k.
  destruct (decide (k = __name__ (model item0))) as [-> | Hne].
  - rewrite lookup_insert_eq, (get_bucket_wf _ _ Hwf' Hin), (Hb _ Hin). do 2 f_equal.
    rewrite filter_cons, decide_True by done. f_equal.
    clear -Hrest. induction Hrest as [|it rest Hit _ IH]; [done|].
    by rewrite filter_cons, decide_True, <- IH.
  - rewrite lookup_insert_ne by done. symmetry. apply Hk.
    constructor; [done|]. eapply Forall_impl; [exact Hrest|]. by intros it ->.
Qed.

(** *** What [save_all] does to the buffers *)

Lemma _save_frame cls st k :
  k <> __name__ cls -> saving (_save cls st).1.2 !! k = saving st !! k.
Proof.
  intros Hne. destruct (saving st !! __name__ cls) as [items|] eqn:E.
  - pose proof (_save_post cls st items E) as H.
    destruct (_save cls st) as [[r st1] t1]. destruct H as (Hs & _). simpl in *.
    rewrite Hs. by apply lookup_insert_ne.
  - by rewrite _save_unfold, E.
Qed.

Lemma for_each_save_frame classes st k :
  k ∉ __name__ <$> classes ->
  saving (for_each classes _save st).1.2 !! k = saving st !! k.
Proof.
  revert classes st.
  apply (for_each_ind _save
           (fun l st o => k ∉ __name__ <$> l -> saving o.1.2 !! k = saving st !! k)).
  - done.
  - intros x l st e st1 t1 E Hk. rewrite fmap_cons, not_elem_of_cons in Hk.
    pose proof (_save_frame x st k (proj1 Hk)) as H. by rewrite E in H.
  - intros x l st st1 t1 r st2 t2 E _ IH Hk. rewrite fmap_cons, not_elem_of_cons in Hk.
    pose proof (_save_frame x st k (proj1 Hk)) as H. rewrite E in H. simpl in *.
    rewrite (IH (proj2 Hk)). exact H.
Qed.

(** The buffers after [save_all]: a key that names no pending class keeps
    its value, no key is lost, and a [save_all] that returns has emptied the
    buckets of the pending classes. *)
Lemma save_all_saving before_save st :
  saver_wf (saving st) ->
  let classes := saving_classes_of (saving st) in
  let o := save_all before_save st in
  (forall k, k ∉ __name__ <$> classes -> saving o.1.2 !! k = saving st !! k) /\
  (forall k, is_Some (saving st !! k) -> is_Some (saving o.1.2 !! k)) /\
  (o.1.1 = Ok () -> forall cls, cls ∈ classes -> saving o.1.2 !! __name__ cls = Some []).
Proof.
  intros Hwf classes o. subst o. rewrite save_all_run by done. fold classes.
  set (counts := item_counts_of (saving st) classes).
  pose proof (saving_classes_in_order (saving st)) as Hord. fold classes in Hord.
  destruct (reserve classes counts (store st)) as [[[]|e0] s1]; cbv zeta; [|done].
  pose proof (for_each_prepare_post classes
                {| store := s1; saving := saving st |} Hord) as Hprep.
  destruct (for_each classes _prepare _) as [[rp st2] t2].
  destruct Hprep as (Hk2 & Hsome2 & _ & _). simpl in Hk2, Hsome2.
  destruct rp as [[]|e0]; [|done].
  pose proof (run_hook_post before_save st2) as Hhook.
  destruct (run_hook before_save st2) as [[rh st3] t3]. destruct Hhook as [Hs3 _].
  destruct rh as [[]|e0]; [|simpl; by rewrite Hs3].
  pose proof (for_each_save_post classes st3 Hord) as Hsave.
  pose proof (for_each_save_frame classes st3) as Hframe.
  destruct (for_each classes _save st3) as [[r st4] t4].
  destruct Hsave as (Hk4 & Hok4 & _). simpl in *.
  split; [|split; [|done]].
  - intros k Hk. by rewrite (Hframe k Hk), Hs3, Hk2.
  - intros k Hk. destruct (Hk4 k) as [-> | ->]; [|by eexists].
    rewrite Hs3. by apply Hsome2.
Qed.



(** X3: every class of [SAVING_CLASSES_ORDER] has its bucket in the saver
    that [__init__] builds, and [add], [add_all] and [save_all] keep it so,
    whatever they return or raise: no bucket is ever removed. *)
Theorem saver_wf_invariant :
  saver_wf __init__ /\
  (forall item st, saver_wf (saving st) -> saver_wf (saving (add item st).1.2)) /\
  (forall items st, saver_wf (saving st) -> saver_wf (saving (add_all items st).1.2)) /\
  (forall before_save st,
     saver_wf (saving st) -> saver_wf (saving (save_all before_save st).1.2)).
Proof.
  split; [apply all_buckets_empty_wf, __init___empty|].
  split; [intros; by apply add_wf|]. split; [intros; by apply add_all_wf|].
  intros before_save st Hwf.
  destruct (save_all_saving before_save st Hwf) as (_ & Hsome & _).
  unfold saver_wf in *. eapply Forall_impl; [exact Hwf|]. intros cls. apply Hsome.
Qed.



End Buffers.

(** ** What a write sends to the store *)

Section Retries.
Context {W : World}.

Lemma handled_app (t1 t2 : list event) : handled (t1 ++ t2) = handled t1 ++ handled t2.
Proof. unfold handled. by rewrite omap_app, concat_app. Qed.

Lemma remerge_after_conflict_app (t1 t2 : list event) :
  remerge_after_conflict t1 -> remerge_after_conflict t2 ->
  remerge_after_conflict (t1 ++ t2).
Proof.
  intros H1 H2 i cls items u Hi. apply lookup_app_Some in Hi as [Hi|[Hge Hi]].
  - destruct (H1 _ _ _ _ Hi) as (j & d & -> & -> & Hj). exists j, d.
    split; [done|]. split; [done|]. by apply lookup_app_l_Some.
  - destruct (H2 _ _ _ _ Hi) as (j & d & Hij & -> & Hj).
    exists (length t1 + j), d. split; [lia|]. split; [done|].
    rewrite lookup_app_r by lia. by replace (length t1 + j - length t1) with j by lia.
Qed.


Lemma length_concat_nonempty {A} (ls : list (list A)) :
  Forall (fun l => l <> []) ls -> length ls <= length (concat ls).
Proof.
  induction 1 as [|l ls Hl _ IH]; [done|]. simpl. rewrite length_app.
  destruct l; [done|]. simpl. lia.
Qed.

Lemma split_every_sublist {A} n (l : list A) :
  Forall (fun piece => piece `sublist_of` l) (split_every n l).
Proof.
  destruct n as [|n].
  { unfold split_every. destruct (length l); simpl; constructor. }
  apply (split_every_ind (S n)
           (fun l ps => Forall (fun piece => piece `sublist_of` l) ps)); [lia|done|].
  intros l' _ IH. constructor; [apply sublist_take|].
  eapply Forall_impl; [exact IH|]. intros piece Hp. simpl in Hp.
  etrans; [exact Hp|apply sublist_drop].
Qed.

Lemma split_every_nonempty {A} n (l : list A) :
  Forall (fun piece => piece <> []) (split_every n l).
Proof.
  destruct n as [|n].
  { unfold split_every. destruct (length l); simpl; constructor. }
  eapply Forall_impl; [apply (split_every_pieces (S n) l); lia|].
  intros piece [Hp _] ->. simpl in Hp. lia.
Qed.

Lemma conflict_then_remerge_app (t1 t2 : list event) :
  conflict_then_remerge t1 -> conflict_then_remerge t2 ->
  conflict_then_remerge (t1 ++ t2).
Proof.
  intros H1 H2 j cls d Hj. apply lookup_app_Some in Hj as [Hj|[Hge Hj]].
  - destruct (H1 _ _ _ Hj) as [u Hu]. exists u. by apply lookup_app_l_Some.
  - destruct (H2 _ _ _ Hj) as [u Hu]. exists u.
    rewrite lookup_app_r by lia. by replace (S j - length t1) with (S (j - length t1)) by lia.
Qed.


(** The loop over the sub-batches, given what holds of each call. *)
Lemma retry_facts cls subs acc st :
  Forall (fun sub => sub <> []) subs ->
  (forall sub st', sub ∈ subs -> retry_post sub (_save_batch cls sub st')) ->
  let '(r, _, t) := retry (_save_batch cls) subs acc st in
  length (attempts t) + length subs <= 2 * length (concat subs) /\
  Forall (fun b => b <> [] /\ exists sub, sub ∈ subs /\ b `sublist_of` sub) (attempts t) /\
  (remerge_after_conflict t /\ conflict_then_remerge t) /\
  handled t `prefix_of` concat subs /\
  match r with
  | Ok n => handled t = concat subs /\ n = acc + length (attempts t)
  | Raise _ => length (handled t) < length (concat subs)
  end.
Proof.
  revert acc st. induction subs as [|sub subs IH]; intros acc st Hne Hsub.
  { simpl. split; [lia|]. split; [constructor|].
    split; [split; [by intros i ????|by intros j ???]|].
    split; [done|]. split; [done|lia]. }
  apply Forall_cons in Hne as [Hne1 Hne].
  cbn [retry]. rewrite bind_unfold.
  pose proof (Hsub sub st ltac:(apply list_elem_of_here)) as H1.
  destruct (_save_batch cls sub st) as [[[k|e] st1] t1];
    destruct H1 as (Hlen1 & Hatt1 & [Hm1 Hc1] & Hpre1 & Hok1).
  - specialize (IH (acc + k) st1 Hne
                  ltac:(intros; apply Hsub; by apply list_elem_of_further)).
    destruct (retry (_save_batch cls) subs (acc + k) st1) as [[r st2] t2].
    destruct IH as (Hlen2 & Hatt2 & [Hm2 Hc2] & Hpre2 & Hok2).
    destruct Hok1 as [Hh1 ->].
    rewrite attempts_app, handled_app, Hh1. cbn [concat length].
    rewrite !length_app. split; [lia|]. split; [|split; [|split]].
    + apply Forall_app. split.
      * eapply Forall_impl; [exact Hatt1|]. intros b [Hb Hs]. split; [done|].
        exists sub. split; [apply list_elem_of_here|done].
      * eapply Forall_impl; [exact Hatt2|]. intros b (Hb & sub' & Hin & Hs).
        split; [done|]. exists sub'. split; [by apply list_elem_of_further|done].
    + split; [by apply remerge_after_conflict_app|by apply conflict_then_remerge_app].
    + by apply prefix_app.
    + destruct r as [n|e]; [destruct Hok2 as [-> ->]; split; [done|lia]|lia].
  - pose proof (length_concat_nonempty subs Hne). cbn [concat length].
    rewrite length_app. split; [lia|]. split; [|split; [done|split]].
    + eapply Forall_impl; [exact Hatt1|]. intros b [Hb Hs]. split; [done|].
      exists sub. split; [apply list_elem_of_here|done].
    + by apply prefix_app_r.
    + lia.
Qed.

(** What every outcome of [_save_batch] on a batch that is not empty
    satisfies. *)
Lemma _save_batch_facts cls batch st :
  batch <> [] -> retry_post batch (_save_batch cls batch st).
Proof.
  revert batch st.
  apply (_save_batch_ind cls (fun batch st o => batch <> [] -> retry_post batch o)).
  - intros batch st s1 _ Hne. unfold retry_post, handled. simpl. rewrite app_nil_r.
    destruct batch; [done|]. simpl. split; [lia|].
    split; [by repeat constructor|]. split; [split|split; [done|]].
    + intros [|[|?]] ????; simplify_eq/=.
    + intros [|[|?]] ???; simplify_eq/=.
    + done.
  - intros batch st e s1 _ He Hne. destruct batch; [done|]. unfold retry_post, handled. simpl.
    split; [lia|]. split; [by repeat constructor|]. split; [split|split].
    + intros [|[|?]] ????; simplify_eq/=.
    + intros [|[|?]] ???; simplify_eq/=.
    + destruct e; simpl; apply prefix_nil.
    + destruct e; simpl; (done || lia).
  - intros d st s1 _ _. rewrite remerge_unfold. simpl.
    destruct (merge cls [d] s1) as [u s2]. unfold retry_post, handled. simpl.
    split; [lia|]. split; [by repeat constructor|]. split; [split|split].
    + intros [|[|[|?]]] ????; simplify_eq/=. by exists 0, d.
    + intros [|[|[|?]]] ???; simplify_eq/=. by exists u.
    + destruct u as [[|u us]|e]; simpl; [done|apply prefix_nil..].
    + destruct u as [[|u us]|e]; simpl; (done || lia).
  - intros batch st s1 Hlen _ IH Hne.
    assert (1 < length batch) as Hlen1
      by (destruct batch as [|? [|? ?]]; simpl in *; (done || lia)).
    set (subs := split_every (sub_batch_size batch) batch).
    assert (0 < sub_batch_size batch) as Hsize
      by (rewrite sub_batch_size_ceil; apply ceil_div_4_pos; lia).
    pose proof (split_every_nonempty (sub_batch_size batch) batch) as Hne'.
    fold subs in Hne', IH.
    pose proof (retry_facts cls subs 1 {| store := s1; saving := saving st |} Hne') as H.
    destruct (retry (_save_batch cls) subs 1 _) as [[r st2] t2].
    destruct H as (Hl & Hatt & [Hm Hc] & Hpre & Hok).
    { intros sub st' Hin. apply IH; [done|].
      rewrite Forall_forall in Hne'. by apply Hne'. }
    assert (concat subs = batch) as Hcat by (by apply concat_split_every).
    rewrite Hcat in *.
    assert (2 <= length subs) as Hk.
    { unfold subs. rewrite length_split_every by done.
      rewrite sub_batch_size_ceil.
      pose proof (ceil_div_4_lt _ Hlen1) as Hlt.
      pose proof (ceil_div_4_pos (length batch) ltac:(lia)) as Hpos.
      revert Hlt Hpos. generalize (ceil_div (length batch) 4) as size. intros size Hlt Hpos.
      unfold ceil_div.
      apply (Nat.div_le_lower_bound _ size 2); lia. }
    unfold retry_post.
    change (attempts (BulkInsert cls batch (Raise IntegrityError) :: t2))
      with (batch :: attempts t2).
    change (handled (BulkInsert cls batch (Raise IntegrityError) :: t2))
      with (handled t2).
    simpl. split; [lia|]. split; [|split; [split|split]].
    + constructor; [done|].
      eapply Forall_impl; [exact Hatt|]. intros b (Hb & sub & Hin & Hs).
      split; [done|]. etrans; [exact Hs|].
      pose proof (split_every_sublist (sub_batch_size batch) batch) as Hsl.
      rewrite Forall_forall in Hsl. by apply Hsl.
    + apply (remerge_after_conflict_app [_] t2); [|done].
      intros [|[|?]] ????; simplify_eq/=.
    + apply (conflict_then_remerge_app [_] t2); [|done].
      intros [|[|?]] ? d Hj; [|done..]. injection Hj as _ Hb. by rewrite Hb in Hlen.
    + done.
    + destruct r as [n|e]; [|done]. destruct Hok as [-> ->]. done.
Qed.

Lemma _save_batch_first cls batch st :
  exists outcome rest,
    trace_of (_save_batch cls batch st) = BulkInsert cls batch outcome :: rest.
Proof.
  revert batch st.
  apply (_save_batch_ind cls
           (fun batch _ o => exists outcome rest,
                trace_of o = BulkInsert cls batch outcome :: rest)).
  - intros. by eexists _, _.
  - intros. by eexists _, _.
  - intros d st s1 _. destruct (remerge _ _ _ _) as [[r st2] t2]. by eexists _, _.
  - intros batch st s1 _ _ _. destruct (retry _ _ _ _) as [[r st2] t2]. by eexists _, _.
Qed.

(** X6: the insert attempts of [_save_batch] on a batch that is not empty.
    The first one sends the whole batch; none is empty, and each sends
    records of the batch in the order of the batch; there are at most
    [2 * len(batch) - 1] of them, whatever the store answers; and when
    [_save_batch] returns, the round trips it returns are their number. *)
Theorem _save_batch_attempts cls batch st :
  batch <> [] ->
  let o := _save_batch cls batch st in
  (exists rest, attempts (trace_of o) = batch :: rest) /\
  length (attempts (trace_of o)) <= 2 * length batch - 1 /\
  Forall (fun b => b <> [] /\ b `sublist_of` batch) (attempts (trace_of o)) /\
  (forall n, o.1.1 = Ok n -> n = length (attempts (trace_of o))).
Proof.
  intros Hne o. subst o.
  destruct (_save_batch_first cls batch st) as (out & rest & Hfirst).
  pose proof (_save_batch_facts cls batch st Hne) as H.
  destruct (_save_batch cls batch st) as [[r st'] t]. unfold trace_of in *. simpl in *.
  destruct H as (Hlen & Hatt & _ & _ & Hr).
  split; [subst t; by eexists|]. split; [lia|]. split; [done|].
  intros n ->. by destruct Hr.
Qed.

(** X7: the records [_save_batch] has dealt with, those of the inserts that
    committed and those a re-merge resolved, taken in the order of the
    calls, are always the first records of the batch, each once; they are
    the whole batch exactly when [_save_batch] returns.  So a call that
    returns has inserted or merged every record, and a call that raises has
    left at least one record out. *)
Theorem _save_batch_handles cls batch st :
  batch <> [] ->
  let o := _save_batch cls batch st in
  handled (trace_of o) `prefix_of` batch /\
  ((exists n, o.1.1 = Ok n) <-> handled (trace_of o) = batch).
Proof.
  intros Hne o. subst o.
  pose proof (_save_batch_facts cls batch st Hne) as H.
  destruct (_save_batch cls batch st) as [[r st'] t]. unfold trace_of. simpl.
  destruct H as (_ & _ & _ & Hpre & Hr). split; [done|].
  destruct r as [n|e].
  - destruct Hr as [-> _]. split; [done|by exists n].
  - split; [by intros [n ?]|]. intros Heq. rewrite Heq in Hr. lia.
Qed.

(** X8: in the calls of [_save_batch], [merge] is called exactly for the
    single records whose own insert raised a uniqueness conflict: every
    re-merge is on one record of the batch, for the class being saved, and
    comes right after the conflicting insert of that record alone; and every
    such conflict is followed at once by the re-merge of its record. *)
Theorem _save_batch_remerges cls batch st :
  batch <> [] ->
  let t := trace_of (_save_batch cls batch st) in
  remerge_after_conflict t /\ conflict_then_remerge t /\
  forall i cls' items unresolved,
    t !! i = Some (Merge cls' items unresolved) ->
    cls' = cls /\ exists duplicate, items = [duplicate] /\ duplicate ∈ batch.
Proof.
  intros Hne t. subst t.
  pose proof (_save_batch_facts cls batch st Hne) as H.
  pose proof (_save_batch_post cls batch st) as Hpost.
  destruct (_save_batch cls batch st) as [[r st'] t]. unfold trace_of. simpl.
  destruct H as (_ & Hatt & [Hm Hc] & _). destruct Hpost as (_ & Hw & _).
  split; [done|]. split; [done|].
  intros i cls' items u Hi. rewrite Forall_lookup in Hw.
  pose proof (Hw _ _ Hi) as Hcls. simpl in Hcls. split; [congruence|].
  destruct (Hm _ _ _ _ Hi) as (j & d & _ & -> & Hj). exists d. split; [done|].
  assert ([d] ∈ attempts t) as Hin.
  { unfold attempts. apply list_elem_of_omap.
    exists (BulkInsert cls' [d] (Raise IntegrityError)).
    split; [by eapply list_elem_of_lookup_2|done]. }
  rewrite Forall_forall in Hatt. destruct (Hatt _ Hin) as [_ Hs].
  by apply singleton_sublist_l.
Qed.

Lemma for_each_chunks_retry cls subs acc st :
  for_each subs (save_chunk cls) st =
  let '(r, st', t) := retry (_save_batch cls) subs acc st in
  (match r with Ok _ => Ok () | Raise e => Raise e end, st', t).
Proof.
  revert acc st. induction subs as [|sub subs IH]; intros acc st; [done|].
  cbn [for_each retry]. rewrite !bind_unfold, save_chunk_unfold.
  destruct (_save_batch cls sub st) as [[[k|e] st1] t1]; [|done].
  rewrite (IH (acc + k) st1). by destruct (retry _ _ _ _) as [[r st2] t2].
Qed.




(** The outcomes of [_save] on a bucket that holds [items]. *)
Lemma _save_facts cls st items :
  saving st !! __name__ cls = Some items ->
  let '(r, _, t) := _save cls st in
  Forall (fun b => 0 < length b <= BATCH_SIZE /\ b `sublist_of` items) (attempts t) /\
  (remerge_after_conflict t /\ conflict_then_remerge t) /\
  handled t `prefix_of` items /\
  (r = Ok () <-> handled t = items).
Proof.
  intros Hitems. rewrite _save_unfold, Hitems.
  set (chunks := split_every BATCH_SIZE items).
  rewrite (for_each_chunks_retry cls chunks 0).
  pose proof (split_every_nonempty BATCH_SIZE items) as Hne. fold chunks in Hne.
  pose proof (retry_facts cls chunks 0
                {| store := store st; saving := <[__name__ cls := []]> (saving st) |}
                Hne) as H.
  destruct (retry (_save_batch cls) chunks 0 _) as [[r st2] t2].
  destruct H as (_ & Hatt & Hmc & Hpre & Hr).
  { intros sub st' Hin. apply _save_batch_facts. rewrite Forall_forall in Hne. by apply Hne. }
  assert (concat chunks = items) as Hcat by (apply concat_split_every, BATCH_SIZE_pos).
  rewrite Hcat in *.
  split; [|split; [done|split; [done|]]].
  - eapply Forall_impl; [exact Hatt|]. intros b (Hb & sub & Hin & Hs).
    pose proof (split_every_pieces BATCH_SIZE items BATCH_SIZE_pos) as Hp.
    pose proof (split_every_sublist BATCH_SIZE items) as Hsl.
    fold chunks in Hp, Hsl. rewrite Forall_forall in Hp, Hsl.
    pose proof (sublist_length _ _ Hs). pose proof (Hp _ Hin).
    split; [destruct b; [done|simpl in *; lia]|].
    etrans; [exact Hs|by apply Hsl].
  - destruct r as [n|e]; [by destruct Hr|].
    split; [done|]. intros Heq. rewrite Heq in Hr. lia.
Qed.



(** X9: [_save] on a bucket that holds [items].  Every insert attempt sends
    between one and [BATCH_SIZE] records, all of them records of the bucket
    in its order; the records dealt with are always the first records of the
    bucket, and they are all of it exactly when [_save] returns. *)
Theorem _save_handles cls st items :
  saving st !! __name__ cls = Some items ->
  let o := _save cls st in
  Forall (fun b => 0 < length b <= BATCH_SIZE /\ b `sublist_of` items)
         (attempts (trace_of o)) /\
  handled (trace_of o) `prefix_of` items /\
  (o.1.1 = Ok () <-> handled (trace_of o) = items).
Proof.
  intros Hitems o. subst o. pose proof (_save_facts cls st items Hitems) as H.
  destruct (_save cls st) as [[r st'] t]. unfold trace_of. simpl.
  by destruct H as (Hatt & _ & Hpre & Hr).
Qed.


End Retries.

(** ** The reservation, the preparations and the statistics *)

Section Flush.
Context {W : World}.

Lemma item_counts_of_lookup (sv : gmap string (list Item)) classes (acc : gmap string nat) k :
  foldl (fun acc cls => <[__name__ cls := length (bucket_of sv cls)]> acc) acc classes !! k
  = if decide (k ∈ __name__ <$> classes)
    then Some (length (default [] (sv !! k))) else acc !! k.
Proof.
  revert acc. induction classes as [|cls classes IH]; intros acc; [done|].
  cbn [foldl]. rewrite IH, fmap_cons.
  destruct (decide (k ∈ __name__ <$> classes)) as [Hin|Hin].
  - rewrite decide_True by (by apply list_elem_of_further). done.
  - destruct (decide (k = __name__ cls)) as [-> | Hne].
    + rewrite decide_True by apply list_elem_of_here. by rewrite lookup_insert_eq.
    + rewrite decide_False by (by intros [?|?]%elem_of_cons).
      by rewrite lookup_insert_ne.
Qed.

Lemma saving_classes_of_spec (sv : gmap string (list Item)) cls :
  cls ∈ saving_classes_of sv <-> cls ∈ SAVING_CLASSES_ORDER /\ bucket_of sv cls <> [].
Proof.
  unfold saving_classes_of. rewrite list_elem_of_filter.
  split; intros [H1 H2]; (split; [|]); try done.
  - by destruct (bucket_of sv cls).
  - by destruct (bucket_of sv cls).
Qed.

Lemma save_all_trace_head before_save st :
  saver_wf (saving st) ->
  exists rest,
    trace_of (save_all before_save st)
    = Reserve (saving_classes_of (saving st))
              (item_counts_of (saving st) (saving_classes_of (saving st))) :: rest /\
    Forall (fun ev => ~ is_reservation ev) rest.
Proof.
  intros Hwf. rewrite save_all_run by done.
  set (classes := saving_classes_of (saving st)).
  set (counts := item_counts_of (saving st) classes).
  pose proof (saving_classes_in_order (saving st)) as Hord. fold classes in Hord.
  destruct (reserve classes counts (store st)) as [[[]|e0] s1]; cbv zeta;
    [|by exists []].
  pose proof (for_each_prepare_post classes
                {| store := s1; saving := saving st |} Hord) as Hprep.
  destruct (for_each classes _prepare _) as [[rp st2] t2].
  destruct Hprep as (_ & _ & Hev2 & _).
  assert (Forall (fun ev => ~ is_reservation ev) t2) as H2.
  { eapply Forall_impl; [exact Hev2|]. intros ev (cls & _ & Hp). destruct ev; simpl in *; (discriminate || tauto). }
  destruct rp as [[]|e0]; [|by exists t2].
  pose proof (run_hook_post before_save st2) as Hhook.
  destruct (run_hook before_save st2) as [[rh st3] t3]. destruct Hhook as [_ Hev3].
  assert (Forall (fun ev => ~ is_reservation ev) t3) as H3.
  { eapply Forall_impl; [exact Hev3|]. intros ev ->. simpl. tauto. }
  destruct rh as [[]|e0]; [|exists (t2 ++ t3); split; [done|by apply Forall_app]].
  pose proof (for_each_save_post classes st3 Hord) as Hsave.
  destruct (for_each classes _save st3) as [[r st4] t4].
  destruct Hsave as (_ & _ & Hev4 & _).
  exists (t2 ++ t3 ++ t4). split; [done|]. rewrite !Forall_app. split; [done|split; [done|]].
  eapply Forall_impl; [exact Hev4|]. intros ev (cls & _ & Hw & _).
  destruct ev; simpl in *; (discriminate || tauto).
Qed.

(** X11: [save_all] on a saver that has its buckets always calls [reserve],
    first and once.  The classes it passes are the classes of
    [SAVING_CLASSES_ORDER] whose bucket is not empty, in that order, and the
    counts map the name of each of them to the length of its bucket and hold
    no other key. *)
Theorem save_all_reserves before_save st :
  saver_wf (saving st) ->
  exists classes counts rest,
    trace_of (save_all before_save st) = Reserve classes counts :: rest /\
    Forall (fun ev => ~ is_reservation ev) rest /\
    in_saving_order classes /\
    (forall cls, cls ∈ classes <->
                 cls ∈ SAVING_CLASSES_ORDER /\ bucket_of (saving st) cls <> []) /\
    (forall cls, cls ∈ classes ->
                 counts !! __name__ cls = Some (length (bucket_of (saving st) cls))) /\
    (forall k, k ∉ __name__ <$> classes -> counts !! k = None).
Proof.
  intros Hwf. destruct (save_all_trace_head before_save st Hwf) as (rest & Ht & Hrest).
  exists (saving_classes_of (saving st)),
         (item_counts_of (saving st) (saving_classes_of (saving st))), rest.
  split; [done|]. split; [done|]. split; [apply saving_classes_in_order|].
  split; [apply saving_classes_of_spec|]. unfold item_counts_of. split.
  - intros cls Hin. rewrite item_counts_of_lookup.
    rewrite decide_True by (apply list_elem_of_fmap; by exists cls). done.
  - intros k Hk. rewrite item_counts_of_lookup. by rewrite decide_False.
Qed.

Lemma omap_prepares_nil (t : list event) :
  Forall (fun ev => prepares ev = None) t -> omap prepares t = [].
Proof. induction 1 as [|ev t Hev _ IH]; [done|]. simpl. by rewrite Hev. Qed.

Lemma for_each_prepare_prepares classes st :
  let '(r, _, t) := for_each classes _prepare st in
  omap prepares t `prefix_of` classes /\ (r = Ok () -> omap prepares t = classes) /\
  Forall (fun ev => writes ev = None) t.
Proof.
  revert classes st.
  apply (for_each_ind _prepare
           (fun l _ o => let '(r, _, t) := o in
              omap prepares t `prefix_of` l /\ (r = Ok () -> omap prepares t = l) /\
              Forall (fun ev => writes ev = None) t)).
  - done.
  - intros x l st e st1 t1 E. rewrite _prepare_unfold in E.
    destruct (saving st !! __name__ x) as [raw|].
    + destruct (prepare x raw (store st)) as [[prepared|e'] s1]; [done|].
      injection E as _ _ <-. simpl. split; [|split; [done|by repeat constructor]].
      by apply (prefix_app [x] [] l), prefix_nil.
    + injection E as _ _ <-. split; [apply prefix_nil|]. split; [done|constructor].
  - intros x l st st1 t1 r st2 t2 E _ (Hpre & Hok & Hw). rewrite _prepare_unfold in E.
    destruct (saving st !! __name__ x) as [raw|]; [|done].
    destruct (prepare x raw (store st)) as [[prepared|e'] s1]; [|done].
    injection E as _ <-.
    change (omap prepares ([Prepare x raw] ++ t2)) with (x :: omap prepares t2).
    split; [by apply (prefix_app [x])|].
    split; [intros Hr; by rewrite (Hok Hr)|]. by constructor.
Qed.

(** X12: [save_all] prepares the pending classes in their order, each at most
    once, and no write is attempted before all of them are prepared: the
    classes prepared are always the first of the pending classes, and they
    are all of them as soon as the trace holds one insert or re-merge. *)
Theorem save_all_prepares_all before_save st :
  let t := trace_of (save_all before_save st) in
  omap prepares t `prefix_of` saving_classes_of (saving st) /\
  (forall ev, ev ∈ t -> is_Some (writes ev) ->
              omap prepares t = saving_classes_of (saving st)).
Proof.
  intros t. subst t.
  destruct (decide (saver_wf (saving st))) as [Hwf|Hwf]; cycle 1.
  { destruct (save_all_not_wf before_save st Hwf) as [e ->]. unfold trace_of. simpl.
    split; [apply prefix_nil|]. by intros ev Hin%elem_of_nil. }
  rewrite save_all_run by done.
  set (classes := saving_classes_of (saving st)).
  set (counts := item_counts_of (saving st) classes).
  pose proof (saving_classes_in_order (saving st)) as Hord. fold classes in Hord.
  destruct (reserve classes counts (store st)) as [[[]|e0] s1]; cbv zeta; unfold trace_of.
  2:{ simpl. split; [apply prefix_nil|].
      intros ev ->%list_elem_of_singleton [? Hw]. done. }
  pose proof (for_each_prepare_prepares classes {| store := s1; saving := saving st |}) as Hprep.
  destruct (for_each classes _prepare _) as [[rp st2] t2].
  destruct Hprep as (Hpre & Hok & Hw2).
  destruct rp as [[]|e0].
  2:{ simpl. split; [done|]. intros ev [-> | Hin]%elem_of_cons [? Hw]; [done|].
      rewrite Forall_forall in Hw2. by rewrite (Hw2 _ Hin) in Hw. }
  specialize (Hok eq_refl).
  pose proof (run_hook_post before_save st2) as Hhook.
  destruct (run_hook before_save st2) as [[rh st3] t3]. destruct Hhook as [_ Hev3].
  assert (omap prepares t3 = []) as H3.
  { apply omap_prepares_nil. eapply Forall_impl; [exact Hev3|]. by intros ev ->. }
  destruct rh as [[]|e0].
  2:{ simpl. rewrite omap_app, H3, app_nil_r, Hok. done. }
  pose proof (for_each_save_post classes st3 Hord) as Hsave.
  destruct (for_each classes _save st3) as [[r st4] t4].
  destruct Hsave as (_ & _ & Hev4 & _).
  assert (omap prepares t4 = []) as H4.
  { apply omap_prepares_nil. eapply Forall_impl; [exact Hev4|].
    intros ev (cls & _ & Hw & _). by destruct ev. }
  simpl. rewrite !omap_app, H3, H4, !app_nil_r, Hok. done.
Qed.

Lemma string_app_assoc (a b c : string) : (a +:+ b) +:+ c = a +:+ (b +:+ c).
Proof.
  induction a as [|x a IH]; [done|].
  change (String x ((a +:+ b) +:+ c) = String x (a +:+ (b +:+ c))). by rewrite IH.
Qed.

Lemma string_app_nil_r (a : string) : a +:+ "" = a.
Proof.
  induction a as [|x a IH]; [done|].
  change (String x (a +:+ EmptyString) = String x a). by rewrite IH.
Qed.

Lemma dump_loop_run classes stat_str st :
  Forall (fun cls => is_Some (saving st !! __name__ cls)) classes ->
  dump_loop classes stat_str st
  = (Ok (stat_str +:+
         foldr (fun cls s => stat_line (__name__ cls) (length (bucket_of (saving st) cls)) +:+ s)
               "" classes), st, []).
Proof.
  revert stat_str. induction classes as [|cls classes IH]; intros stat_str Hall.
  { simpl. unfold ret. by rewrite string_app_nil_r. }
  apply Forall_cons in Hall as [[bucket Hb] Hall].
  cbn [dump_loop foldr]. rewrite (bind_pure _ _ bucket) by (by apply get_bucket_Some).
  rewrite IH by done. unfold bucket_of at 2. rewrite Hb. simpl.
  by rewrite string_app_assoc.
Qed.

(** X13: on a saver that has its buckets [dump_stats] returns one line per
    class of [SAVING_CLASSES_ORDER], in that order, each made of the name of
    the class and the number of records in its bucket; it changes nothing
    and calls nothing.  On a saver that misses a bucket it raises
    [KeyError]. *)
Theorem dump_stats_lines st :
  (saver_wf (saving st) ->
   dump_stats st
   = (Ok (foldr (fun cls s =>
                   stat_line (__name__ cls) (length (bucket_of (saving st) cls)) +:+ s)
                "" SAVING_CLASSES_ORDER), st, [])) /\
  (~ saver_wf (saving st) ->
   exists k, dump_stats st = (Raise (KeyError k), st, [])).
Proof.
  split.
  - intros Hwf. unfold dump_stats. by rewrite dump_loop_run.
  - intros Hwf. unfold dump_stats. revert Hwf. unfold saver_wf.
    generalize "" as stat_str. generalize SAVING_CLASSES_ORDER as classes.
    induction classes as [|cls classes IH]; intros stat_str Hwf.
    { contradiction Hwf. constructor. }
    cbn [dump_loop]. destruct (saving st !! __name__ cls) as [bucket|] eqn:Hb.
    + rewrite (bind_pure _ _ bucket) by (by apply get_bucket_Some).
      apply IH. intros Hall. apply Hwf. constructor; [by eexists|done].
    + exists (__name__ cls). unfold bind, get_bucket. by rewrite Hb.
Qed.


End Flush.

(** ** The association helpers *)

Section AssocFacts.
Context {W : World}.
Variable Record : Model -> list (string * Value) -> Item.
Variable id_of : Item -> Value.
Variable depth_value : option Z -> Value.

(** X15: the four association helpers never trip the assertion of [add]:
    their classes are in [SAVING_CLASSES_ORDER].  Provided a record built by
    [cls.Record] has [cls] as its model, each helper, on a saver that has its
    buckets, appends one record to the bucket of its association class, the
    record built from the ids of its arguments, and changes nothing else. *)
Theorem assoc_helpers_add_one st :
  (forall cls fields, model (Record cls fields) = cls) ->
  saver_wf (saving st) ->
  let added cls fields :=
    (Ok (),
     {| store := store st;
        saving := <[__name__ cls := bucket_of (saving st) cls ++ [Record cls fields]]>
                    (saving st) |},
     @nil event) in
  (forall message trace_frame depth,
     add_trace_frame_leaf_assoc Record id_of depth_value message trace_frame depth st
     = added TraceFrameLeafAssoc
         [("trace_frame_id", id_of trace_frame); ("leaf_id", id_of message);
          ("trace_length", depth_value depth)]) /\
  (forall issue_instance trace_frame,
     add_issue_instance_trace_frame_assoc Record id_of issue_instance trace_frame st
     = added IssueInstanceTraceFrameAssoc
         [("issue_instance_id", id_of issue_instance);
          ("trace_frame_id", id_of trace_frame)]) /\
  (forall issue_instance shared_text,
     add_issue_instance_shared_text_assoc Record id_of issue_instance shared_text st
     = added IssueInstanceSharedTextAssoc
         [("issue_instance_id", id_of issue_instance);
          ("shared_text_id", id_of shared_text)]) /\
  (forall trace_frame_annotation trace_frame,
     add_trace_frame_annotation_trace_frame_assoc Record id_of
       trace_frame_annotation trace_frame st
     = added TraceFrameAnnotationTraceFrameAssoc
         [("trace_frame_annotation_id", id_of trace_frame_annotation);
          ("trace_frame_id", id_of trace_frame)]).
Proof.
  intros Hmodel Hwf added.
  assert (forall cls fields, cls ∈ SAVING_CLASSES_ORDER ->
            add (Record cls fields) st = added cls fields) as Hadd.
  { intros cls fields Hin. rewrite add_run by (by rewrite ?Hmodel).
    by rewrite Hmodel. }
  repeat split; intros;
    (apply Hadd; unfold SAVING_CLASSES_ORDER; rewrite !elem_of_cons; tauto).
Qed.

End AssocFacts.

(** ** More runs on the key store *)

Section MoreRuns.
Import KeyStore.

#[local] Abbreviation W1 := (world true).

(** X1 on three records of two classes added to a new saver. *)
Lemma adds_route_by_model_witness :
  let items := [mk SharedText 0; mk Issue 1; mk SharedText 2] in
  (saver_wf (saving (fresh true [])) /\
   Forall (fun it => model (World := W1) it ∈ SAVING_CLASSES_ORDER) items) /\
  (get_items_to_add (W := W1) SharedText
     (for_each items (add (W := W1)) (fresh true [])).1.2).1.1
  = Ok [mk SharedText 0; mk SharedText 2].
Proof.
  cbv zeta.
  assert (saver_wf (saving (fresh true []))) as H1 by saver_wf_run.
  assert (Forall (fun it => model (World := W1) it ∈ SAVING_CLASSES_ORDER)
            [mk SharedText 0; mk Issue 1; mk SharedText 2]) as H2
    by (repeat constructor; compute_done).
  split; [by split|].
  destruct (adds_route_by_model (W := W1) _ _ H1 H2) as (_ & _ & _ & H).
  etrans; [exact (H SharedText ltac:(compute_done))|]. vm_compute. reflexivity.
Defined.

(** X2 on two records of one class. *)
Lemma add_all_as_adds_witness :
  (saver_wf (saving (fresh true [])) /\
   model (World := W1) (mk SharedText 0) ∈ SAVING_CLASSES_ORDER /\
   Forall (fun it => model (World := W1) it = model (World := W1) (mk SharedText 0))
          [mk SharedText 1]) /\
  add_all (W := W1) [mk SharedText 0; mk SharedText 1] (fresh true [])
  = for_each [mk SharedText 0; mk SharedText 1] (add (W := W1)) (fresh true []).
Proof.
  assert (saver_wf (saving (fresh true []))) as H1 by saver_wf_run.
  assert (model (World := W1) (mk SharedText 0) ∈ SAVING_CLASSES_ORDER) as H2
    by compute_done.
  assert (Forall (fun it => model (World := W1) it = model (World := W1) (mk SharedText 0))
            [mk SharedText 1]) as H3 by (by repeat constructor).
  split; [done|].
  apply (add_all_as_adds (W := W1) (mk SharedText 0) [mk SharedText 1] _ H1 H2 H3).
Defined.



(** X6 on the batch of eight with the key 3 committed: seven attempts. *)
Lemma _save_batch_attempts_witness :
  batch8 <> [] /\
  length (attempts (trace_of (_save_batch (W := W1) SharedText batch8
                                (fresh true [(SharedText, 3)]))))
  <= 2 * length batch8 - 1.
Proof.
  assert (batch8 <> []) as H by (by vm_compute).
  split; [exact H|].
  apply (_save_batch_attempts (W := W1) SharedText batch8 (fresh true [(SharedText, 3)]) H).
Defined.

(** X7 on the same batch: the call returns, all eight records are dealt
    with. *)
Lemma _save_batch_handles_witness :
  batch8 <> [] /\
  handled (trace_of (_save_batch (W := W1) SharedText batch8
                       (fresh true [(SharedText, 3)]))) = batch8.
Proof.
  assert (batch8 <> []) as H by (by vm_compute).
  split; [exact H|].
  apply (_save_batch_handles (W := W1) SharedText batch8 (fresh true [(SharedText, 3)]) H).
  exists 7. vm_compute. reflexivity.
Defined.

(** X8 on the same batch. *)
Lemma _save_batch_remerges_witness :
  batch8 <> [] /\
  remerge_after_conflict
    (trace_of (_save_batch (W := W1) SharedText batch8 (fresh true [(SharedText, 3)]))).
Proof.
  assert (batch8 <> []) as H by (by vm_compute).
  split; [exact H|].
  apply (_save_batch_remerges (W := W1) SharedText batch8 (fresh true [(SharedText, 3)]) H).
Defined.

(** X9 on a bucket of eight records, one of which is committed meanwhile. *)
Lemma _save_handles_witness :
  let st := mk_state true [(SharedText, 3)] (saving (pending true [] batch8)) in
  saving st !! __name__ SharedText = Some batch8 /\
  handled (trace_of (_save (W := W1) SharedText st)) `prefix_of` batch8.
Proof.
  cbv zeta.
  assert (saving (mk_state true [(SharedText, 3)] (saving (pending true [] batch8)))
            !! __name__ SharedText = Some batch8) as H by (vm_compute; reflexivity).
  split; [exact H|].
  apply (_save_handles (W := W1) SharedText _ batch8 H).
Defined.

(** X11 on two pending classes. *)
Lemma save_all_reserves_witness :
  let st := pending true [] [mk Issue 1; mk SharedText 0; mk Issue 2] in
  saver_wf (saving st) /\
  exists classes counts rest,
    trace_of (save_all (W := W1) None st) = Reserve classes counts :: rest /\
    counts !! "Issue" = Some 2.
Proof.
  cbv zeta.
  assert (saver_wf (saving (pending true [] [mk Issue 1; mk SharedText 0; mk Issue 2])))
    as H by saver_wf_run.
  split; [exact H|].
  destruct (save_all_reserves (W := W1) None _ H)
    as (classes & counts & rest & Ht & _ & _ & Hcls & Hcounts & _).
  exists classes, counts, rest. split; [exact Ht|].
  etrans; [apply (Hcounts Issue)|vm_compute; reflexivity].
  apply Hcls. split; [compute_done|]. by vm_compute.
Defined.


(** X15 with records made of a class, the first id as key and the names of
    the fields. *)
Lemma assoc_helpers_add_one_witness :
  let Record := fun cls (fields : list (string * nat)) =>
                  mk_cols cls (hd 0 fields.*2) fields.*1 in
  let st := fresh true [] in
  ((forall cls fields, model (World := W1) (Record cls fields) = cls) /\
   saver_wf (saving st)) /\
  add_issue_instance_trace_frame_assoc (W := W1) Record item_key
    (mk IssueInstance 4) (mk TraceFrame 7) st
  = (Ok (),
     mk_state true []
       (<["IssueInstanceTraceFrameAssoc" :=
            [mk_cols IssueInstanceTraceFrameAssoc 4 ["issue_instance_id"; "trace_frame_id"]]]>
          (saving st)),
     []).
Proof.
  cbv zeta.
  assert (forall cls (fields : list (string * nat)),
            model (World := W1) (mk_cols cls (hd 0 fields.*2) fields.*1) = cls) as H1
    by reflexivity.
  assert (saver_wf (saving (fresh true []))) as H2 by saver_wf_run.
  split; [by split|].
  destruct (assoc_helpers_add_one (W := W1)
              (fun cls (fields : list (string * nat)) =>
                 mk_cols cls (hd 0 fields.*2) fields.*1)
              item_key (fun d => match d with Some z => Z.to_nat z | None => 0 end)
              (fresh true []) H1 H2) as (_ & H & _).
  rewrite H. reflexivity.
Defined.

End MoreRuns.
